(** * Ripes assembler core: a shallow embedding of [src/assembler/assembler.h]

    The development follows the class template [AssemblerBase<ISA>]:
    the line classifier ([splitSymbolsFromLine], [splitDirectivesFromLine],
    [splitCommentFromLine]), the four passes of [assemble] and the
    [disassemble] entry point.  Everything an ISA supplies (the lexer's
    quote handling, the instruction, pseudo-instruction and directive
    tables, the matcher) is a field of the class [AssemblerBase] below. *)

From stdpp Require Import gmap strings list sorting pretty.
From Stdlib Require Import ZArith Ascii.
From Stdlib.Strings Require Import Byte.

Local Open Scope string_scope.
Local Open Scope list_scope.
Local Open Scope Z_scope.

(** ** QString operations used by the assembler *)

Module QString.

(** [QString::contains(QChar)] *)
Fixpoint contains (c : ascii) (s : string) : bool :=
  match s with
  | EmptyString => false
  | String a s' => if Ascii.eqb a c then true else contains c s'
  end.

(** [QString::remove(QChar)]: every occurrence of the character goes. *)
Fixpoint remove (c : ascii) (s : string) : string :=
  match s with
  | EmptyString => EmptyString
  | String a s' => if Ascii.eqb a c then remove c s' else String a (remove c s')
  end.

(** [QString::startsWith(QChar)] *)
Definition startsWith (c : ascii) (s : string) : bool :=
  match s with
  | EmptyString => false
  | String a _ => Ascii.eqb a c
  end.

(** [QString::endsWith(QChar)] *)
Fixpoint endsWith (c : ascii) (s : string) : bool :=
  match s with
  | EmptyString => false
  | String a EmptyString => Ascii.eqb a c
  | String _ s' => endsWith c s'
  end.

(** [QString::chop(1)]: the string without its last character. *)
Fixpoint chop1 (s : string) : string :=
  match s with
  | EmptyString => EmptyString
  | String _ EmptyString => EmptyString
  | String a s' => String a (chop1 s')
  end.

(** [QString::isEmpty] *)
Definition isEmpty (s : string) : bool :=
  match s with EmptyString => true | _ => false end.

(** [QStringList::join(QChar)] *)
Fixpoint join (sep : string) (l : list string) : string :=
  match l with
  | [] => ""
  | [s] => s
  | s :: l' => s +:+ sep +:+ join sep l'
  end.

End QString.

(** ** Data model ([assembler_defines.h], as used by [assembler.h]) *)

(** Source line indices: [unsigned] loop counters bounded by the [int] size
    of a [QStringList], so no wrap-around can occur; kept as [nat]. *)
Record Error := mkError { err_sourceLine : nat; message : string }.
Abbreviation Errors := (list Error).

Abbreviation LineTokens := (list string).

(** [std::set<QString>]: a finite set whose range-for visits the elements in
    ascending order. *)
Abbreviation Symbols := (gset string).
Abbreviation Directives := (gset string).

Definition set_iter (s : gset string) : list string :=
  merge_sort String.le (elements s).

Record TokenizedSrcLine := mkTSL {
  sourceLine : nat;
  symbols : Symbols;
  directives : Directives;
  tokens : LineTokens
}.

Abbreviation Program := (list TokenizedSrcLine).

(** Code offsets and instruction words are [uint32_t]. *)
Definition u32 (z : Z) : Z := z mod 2 ^ 32.

Abbreviation SymbolMap := (gmap string Z).
Abbreviation ReverseSymbolMap := (gmap Z string).

Abbreviation QByteArray := (list byte).

Definition byte_of_Z (z : Z) : byte :=
  default x00 (Byte.of_N (Z.to_N (z mod 256))).

Definition Z_of_byte (b : byte) : Z := Z.of_N (Byte.to_N b).

(** The object representation of a [uint32_t] (the source copies it with
    [reinterpret_cast]; little-endian hosts). *)
Definition word_bytes (w : Z) : QByteArray :=
  [byte_of_Z w; byte_of_Z (w ≫ 8); byte_of_Z (w ≫ 16); byte_of_Z (w ≫ 24)].

Definition bytes_word (bs : QByteArray) : Z :=
  foldr (λ b acc, Z_of_byte b + 256 * acc) 0 bs.

(** [*reinterpret_cast<uint32_t*>(program.data() + off)] as an rvalue and as
    an lvalue.  Both are only defined by the language when the four bytes
    lie inside the array; [word_in_bounds] is that condition. *)
Definition word_in_bounds (p : QByteArray) (off : Z) : Prop :=
  0 ≤ off ∧ off + 4 ≤ Z.of_nat (length p).

Definition read_word (p : QByteArray) (off : Z) : Z :=
  bytes_word (take 4 (drop (Z.to_nat off) p)).

Definition write_word (p : QByteArray) (off : Z) (w : Z) : QByteArray :=
  let i := Z.to_nat off in
  <[(i + 3)%nat := byte_of_Z (w ≫ 24)]>
    (<[(i + 2)%nat := byte_of_Z (w ≫ 16)]>
      (<[(i + 1)%nat := byte_of_Z (w ≫ 8)]>
        (<[i := byte_of_Z w]> p))).

(** An immediate field, as far as linking needs it:
    [Imm::applySymbolResolution(symbolValue, instr, address)] returns the
    patched instruction word. *)
Record Imm := { applySymbolResolution : Z → Z → Z → Z }.

(** [FieldLinkRequest]: [field] is a [Field const*]; [Some imm] when the
    [dynamic_cast<const Imm*>] of pass 3 succeeds, [None] otherwise. *)
Record FieldLinkRequest := {
  field : option Imm;
  symbol : string
}.

Record InstrRes := {
  instruction : Z;
  linksWithSymbol : FieldLinkRequest
}.

Record LinkRequest := {
  req_sourceLine : nat;
  offset : Z;
  fieldRequest : FieldLinkRequest
}.
Abbreviation LinkRequests := (list LinkRequest).

Record AssembleResult := {
  program : QByteArray;
  errors : Errors
}.

Record DisassembleResult := {
  dis_program : list string;
  dis_errors : Errors
}.

(** ISA table entries ([instruction.h], [pseudoinstruction.h],
    [directive.h]); only their interface is used here. *)
Record Instruction := {
  instr_name : string;
  instr_assemble : TokenizedSrcLine → Error + InstrRes;
  instr_disassemble : Z → Z → ReverseSymbolMap → Error + LineTokens
}.

Record PseudoInstruction := {
  pseudo_name : string;
  expand : TokenizedSrcLine → Error + option (list LineTokens)
}.

Record Directive := {
  directive_name : string;
  handle : TokenizedSrcLine → Error + option QByteArray
}.

(** What a concrete assembler supplies to the base class: the pure virtual
    [commentDelimiter], the lexer (the regular-expression split followed by
    [splitQuotes] of [lexerutilities.h]), the three name-indexed tables
    built by [initialize], and the matcher of [matcher.h].  [NDEBUG] tells
    whether that macro is defined where the header is compiled: it decides
    if the [assert]s of pass 3 are part of the program. *)
Class AssemblerBase := {
  commentDelimiter : ascii;
  tokenize : string → Error + LineTokens;
  m_instructionMap : gmap string Instruction;
  m_pseudoInstructionMap : gmap string PseudoInstruction;
  m_directivesMap : gmap string Directive;
  matchInstruction : Z → Error + Instruction;
  NDEBUG : bool
}.

(** ** The [runOperation] / [runPass] discipline: a result-or-error bind *)

Definition bindE {E A B} (m : E + A) (k : A → E + B) : E + B :=
  match m with
  | inl e => inl e
  | inr a => k a
  end.

Notation "x ←ᴱ m ; k" := (bindE m (λ x, k))
  (at level 20, m at level 100, k at level 200, only parsing).

(** ** Line classifier *)

Section classifier.

Fixpoint splitSymbols_loop (sourceLine : nat) (tokens : LineTokens)
    (remainingTokens : LineTokens) (symbols : Symbols)
    (symbolStillAllowed : bool) : Error + (Symbols * LineTokens) :=
  match tokens with
  | [] => inr (symbols, remainingTokens)
  | token :: rest =>
      if QString.contains ":" token then
        if symbolStillAllowed then
          let cleanedSymbol := QString.remove ":" token in
          if decide (cleanedSymbol ∈ symbols) then
            inl (mkError sourceLine
                   ("Multiple definitions of symbol '" +:+ cleanedSymbol +:+ "'"))
          else
            splitSymbols_loop sourceLine rest remainingTokens
              ({[cleanedSymbol]} ∪ symbols) symbolStillAllowed
        else inl (mkError sourceLine "Stray ':' in line")
      else
        splitSymbols_loop sourceLine rest (remainingTokens ++ [token])
          symbols false
  end.

Definition splitSymbolsFromLine (tokens : LineTokens) (sourceLine : nat)
    : Error + (Symbols * LineTokens) :=
  match tokens with
  | [] => inr (∅, tokens)
  | _ => splitSymbols_loop sourceLine tokens [] ∅ true
  end.

Fixpoint splitDirectives_loop (sourceLine : nat) (tokens : LineTokens)
    (remainingTokens : LineTokens) (directives : Directives)
    (directivesStillAllowed : bool) : Error + (Directives * LineTokens) :=
  match tokens with
  | [] => inr (directives, remainingTokens)
  | token :: rest =>
      if QString.startsWith "." token then
        if directivesStillAllowed then
          splitDirectives_loop sourceLine rest remainingTokens
            ({[token]} ∪ directives) directivesStillAllowed
        else inl (mkError sourceLine "Stray '.' in line")
      else
        splitDirectives_loop sourceLine rest (remainingTokens ++ [token])
          directives false
  end.

Definition splitDirectivesFromLine (tokens : LineTokens) (sourceLine : nat)
    : Error + (Directives * LineTokens) :=
  match tokens with
  | [] => inr (∅, tokens)
  | _ => splitDirectives_loop sourceLine tokens [] ∅ true
  end.

Context {isa : AssemblerBase}.

(** The loop stops ([break]) at the first token holding the delimiter. *)
Fixpoint splitComment_loop (tokens : LineTokens)
    (preCommentTokens : LineTokens) : LineTokens :=
  match tokens with
  | [] => preCommentTokens
  | token :: rest =>
      if QString.contains commentDelimiter token then preCommentTokens
      else splitComment_loop rest (preCommentTokens ++ [token])
  end.

Definition splitCommentFromLine (tokens : LineTokens) (sourceLine : nat)
    : Error + LineTokens :=
  match tokens with
  | [] => inr tokens
  | _ => inr (splitComment_loop tokens [])
  end.

End classifier.

(** ** The assembler proper *)

Section assembler.
Context {isa : AssemblerBase}.

(** *** ISA dispatch: [expandPseudoOp], [assembleInstruction],
    [assembleDirective] *)

Definition expandPseudoOp (line : TokenizedSrcLine)
    : Error + option (list LineTokens) :=
  match tokens line with
  | [] => inr None
  | opcode :: _ =>
      match m_pseudoInstructionMap !! opcode with
      | None => inr None
      | Some pseudo => expand pseudo line
      end
  end.

(** The out-parameter [assembledWith] is never read by the caller. *)
Definition assembleInstruction (line : TokenizedSrcLine) : Error + InstrRes :=
  match tokens line with
  | [] => inl (mkError (sourceLine line)
                 "Empty source lines should be impossible at this point")
  | opcode :: _ =>
      match m_instructionMap !! opcode with
      | None => inl (mkError (sourceLine line)
                       ("Unknown opcode '" +:+ opcode +:+ "'"))
      | Some instr => instr_assemble instr line
      end
  end.

Definition assembleDirective (line : TokenizedSrcLine)
    : Error + option QByteArray :=
  match tokens line with
  | [] => inl (mkError (sourceLine line)
                 "Empty source lines should be impossible at this point")
  | directive :: _ =>
      match m_directivesMap !! directive with
      | None => inr None
      | Some d => handle d line
      end
  end.

(** *** Pass 0: tokenization and source line recording *)

Record Pass0State := mkPass0 {
  p0_errors : Errors;
  p0_tokenizedLines : Program;
  p0_carry : Symbols
}.

(** The four [runOperation] steps of one loop iteration; an [inl] is the
    error that the macro pushes before it [continue]s. *)
Definition pass0_line (i : nat) (line : string) : Error + TokenizedSrcLine :=
  tokens ←ᴱ tokenize line;
  symbolsAndRest ←ᴱ splitSymbolsFromLine tokens i;
  directivesAndRest ←ᴱ splitDirectivesFromLine symbolsAndRest.2 i;
  remainingTokens ←ᴱ splitCommentFromLine symbolsAndRest.2 i;
  inr (mkTSL i symbolsAndRest.1 directivesAndRest.1 remainingTokens).

Definition pass0_step (st : Pass0State) (i : nat) (line : string)
    : Pass0State :=
  if QString.isEmpty line then st
  else
    match pass0_line i line with
    | inl e => mkPass0 (p0_errors st ++ [e]) (p0_tokenizedLines st) (p0_carry st)
    | inr tsl =>
        if bool_decide (symbols tsl ≠ ∅) && bool_decide (tokens tsl = []) then
          mkPass0 (p0_errors st) (p0_tokenizedLines st)
            (p0_carry st ∪ symbols tsl)
        else if bool_decide (tokens tsl ≠ []) then
          mkPass0 (p0_errors st)
            (p0_tokenizedLines st ++
               [mkTSL (sourceLine tsl) (symbols tsl ∪ p0_carry st)
                  (directives tsl) (tokens tsl)])
            ∅
        else
          mkPass0 (p0_errors st) (p0_tokenizedLines st ++ [tsl]) (p0_carry st)
    end.

(** [for (unsigned i = first; i < program.size(); i++)] over the lines
    from index [i] on. *)
Fixpoint pass0_loop (i : nat) (lines : list string) (st : Pass0State)
    : Pass0State :=
  match lines with
  | [] => st
  | line :: rest => pass0_loop (S i) rest (pass0_step st i line)
  end.

Definition pass0 (program : list string) : Errors + Program :=
  let st := pass0_loop 0 program (mkPass0 [] [] ∅) in
  if bool_decide (p0_errors st ≠ []) then inl (p0_errors st)
  else inr (p0_tokenizedLines st).

(** A source line that only defines symbols: it is not empty, its four
    operations succeed, and they leave at least one symbol and no token. *)
Definition label_only (line : string) (syms : Symbols) : Prop :=
  QString.isEmpty line = false ∧
  ∃ i tsl,
    pass0_line i line = inr tsl ∧ symbols tsl = syms ∧
    syms ≠ ∅ ∧ tokens tsl = [].

(** *** Pass 1: pseudo-op expansion *)

Record Pass1State := mkPass1 {
  p1_errors : Errors;
  p1_expandedLines : Program
}.

(** The inner [for j] loop: one [TokenizedSrcLine] per expanded op. *)
Definition pass1_expansion (tokenizedLine : TokenizedSrcLine)
    (eops : list LineTokens) : Program :=
  imap (λ j eop,
    mkTSL (sourceLine tokenizedLine)
      (if decide (j = 0%nat) then symbols tokenizedLine else ∅)
      (if decide (j = 0%nat) then directives tokenizedLine else ∅)
      eop) eops.

Definition pass1_step (st : Pass1State) (tokenizedLine : TokenizedSrcLine)
    : Pass1State :=
  match expandPseudoOp tokenizedLine with
  | inl e => mkPass1 (p1_errors st ++ [e]) (p1_expandedLines st)
  | inr (Some eops) =>
      mkPass1 (p1_errors st)
        (p1_expandedLines st ++ pass1_expansion tokenizedLine eops)
  | inr None =>
      mkPass1 (p1_errors st) (p1_expandedLines st ++ [tokenizedLine])
  end.

Definition pass1_loop (tokenizedLines : Program) (st : Pass1State)
    : Pass1State :=
  foldl pass1_step st tokenizedLines.

Definition pass1 (tokenizedLines : Program) : Errors + Program :=
  let st := pass1_loop tokenizedLines (mkPass1 [] []) in
  if bool_decide (p1_errors st ≠ []) then inl (p1_errors st)
  else inr (p1_expandedLines st).

(** *** Pass 2: machine code translation *)

Record Pass2State := mkPass2 {
  p2_program : QByteArray;
  p2_errors : Errors;
  p2_symbolMap : SymbolMap;
  p2_needsLinkage : LinkRequests
}.

(** [const uint32_t instr_offset = program.size();] *)
Definition instr_offset_of (program : QByteArray) : Z :=
  u32 (Z.of_nat (length program)).

(** The loop over [line.symbols]. *)
Definition pass2_symbol (sourceLine : nat) (instr_offset : Z)
    (acc : SymbolMap * Errors) (s : string) : SymbolMap * Errors :=
  if bool_decide (is_Some (acc.1 !! s)) then
    (acc.1, acc.2 ++ [mkError sourceLine
                        ("Multiple definitions of symbol '" +:+ s +:+ "'")])
  else (<[s := instr_offset]> acc.1, acc.2).

Definition pass2_symbols (line : TokenizedSrcLine) (instr_offset : Z)
    (acc : SymbolMap * Errors) : SymbolMap * Errors :=
  foldl (pass2_symbol (sourceLine line) instr_offset) acc
    (set_iter (symbols line)).

Definition pass2_step (st : Pass2State) (line : TokenizedSrcLine)
    : Pass2State :=
  let instr_offset := instr_offset_of (p2_program st) in
  let '(symbolMap, errors) :=
    pass2_symbols line instr_offset (p2_symbolMap st, p2_errors st) in
  match assembleDirective line with
  | inl e =>
      mkPass2 (p2_program st) (errors ++ [e]) symbolMap (p2_needsLinkage st)
  | inr (Some directiveBytes) =>
      mkPass2 (p2_program st ++ directiveBytes) errors symbolMap
        (p2_needsLinkage st)
  | inr None =>
      match assembleInstruction line with
      | inl e =>
          mkPass2 (p2_program st) (errors ++ [e]) symbolMap
            (p2_needsLinkage st)
      | inr machineCode =>
          let needsLinkage :=
            if negb (QString.isEmpty (symbol (linksWithSymbol machineCode)))
            then p2_needsLinkage st ++
                   [{| req_sourceLine := sourceLine line;
                       offset := instr_offset;
                       fieldRequest := linksWithSymbol machineCode |}]
            else p2_needsLinkage st in
          mkPass2 (p2_program st ++ word_bytes (instruction machineCode))
            errors symbolMap needsLinkage
      end
  end.

Definition pass2_loop (tokenizedLines : Program) (st : Pass2State)
    : Pass2State :=
  foldl pass2_step st tokenizedLines.

(** [symbolMap] and [needsLinkage] are reference parameters: their final
    values are returned next to the variant. *)
Definition pass2 (tokenizedLines : Program) (symbolMap : SymbolMap)
    (needsLinkage : LinkRequests)
    : (Errors + QByteArray) * SymbolMap * LinkRequests :=
  let st := pass2_loop tokenizedLines (mkPass2 [] [] symbolMap needsLinkage) in
  (if bool_decide (p2_errors st ≠ []) then inl (p2_errors st)
   else inr (p2_program st),
   p2_symbolMap st, p2_needsLinkage st).

(** *** Pass 3: symbol linkage *)

(** A failed [assert] ends the process through [abort()]; [Abort] is that
    end, with the text of the assertion. *)
Inductive Abort :=
  | assertion_failed (assertion : string).

(** [assert(e && "assertion")]: nothing when [NDEBUG] is defined. *)
Definition cassert (e : bool) (assertion : string) : Abort + unit :=
  if NDEBUG || e then inr () else inl (assertion_failed assertion).

Record Pass3State := mkPass3 {
  p3_program : QByteArray;
  p3_errors : Errors
}.

(** One link request.  In the first [assert], [program.size()] is an [int]
    and [linkRequest.offset + 4] an [unsigned]: they are compared as
    [unsigned]. *)
Definition pass3_step (symbolMap : SymbolMap) (st : Pass3State)
    (linkRequest : LinkRequest) : Abort + Pass3State :=
  let symbol := symbol (fieldRequest linkRequest) in
  match symbolMap !! symbol with
  | None =>
      inr (mkPass3 (p3_program st)
             (p3_errors st ++ [mkError (req_sourceLine linkRequest)
                                 ("Unknown symbol '" +:+ symbol +:+ "'")]))
  | Some symbolValue =>
      bindE (cassert
               (bool_decide (u32 (Z.of_nat (length (p3_program st))) ≤
                             u32 (offset linkRequest + 4)))
               "Error: position of link request is not within program")
        (λ _,
      let instr := read_word (p3_program st) (offset linkRequest) in
      instr' ←ᴱ
        match field (fieldRequest linkRequest) with
        | Some immField =>
            inr (applySymbolResolution immField symbolValue instr
                   (offset linkRequest))
        | None =>
            bindE (cassert false
                     "Something other than an immediate field has requested linkage?")
              (λ _, inr instr)
        end;
      inr (mkPass3 (write_word (p3_program st) (offset linkRequest) instr')
             (p3_errors st)))
  end.

Fixpoint pass3_loop (symbolMap : SymbolMap) (needsLinkage : LinkRequests)
    (st : Pass3State) : Abort + Pass3State :=
  match needsLinkage with
  | [] => inr st
  | linkRequest :: needsLinkage' =>
      st' ←ᴱ pass3_step symbolMap st linkRequest;
      pass3_loop symbolMap needsLinkage' st'
  end.

(** [program] is a reference parameter, patched in place. *)
Definition pass3 (program : QByteArray) (symbolMap : SymbolMap)
    (needsLinkage : LinkRequests) : Abort + (Errors + unit) * QByteArray :=
  st ←ᴱ pass3_loop symbolMap needsLinkage (mkPass3 program []);
  inr (if bool_decide (p3_errors st ≠ []) then inl (p3_errors st)
       else inr (),
       p3_program st).

(** *** [assemble] *)

(** The [runPass] macro: on the [Errors] alternative the errors are
    appended to [result] and [assemble] returns; otherwise the rest of the
    function runs on the produced value.  The rest of the function may end
    in an [Abort] of pass 3, when it does not return. *)
Definition runPass {T} (result : AssembleResult) (res : Errors + T)
    (k : T → Abort + AssembleResult) : Abort + AssembleResult :=
  match res with
  | inl errs =>
      inr {| program := program result; errors := errors result ++ errs |}
  | inr v => k v
  end.

Definition assemble (programLines : list string)
    : Abort + AssembleResult :=
  let result := {| program := []; errors := [] |} in
  runPass result (pass0 programLines) (λ tokenizedLines,
  runPass result (pass1 tokenizedLines) (λ expandedLines,
  let '(pass2_res, symbolMap, needsLinkage) := pass2 expandedLines ∅ [] in
  runPass result pass2_res (λ program,
  match pass3 program symbolMap needsLinkage with
  | inl abort => inl abort
  | inr (pass3_res, program) =>
  runPass result pass3_res (λ _,
  inr {| program := program; errors := errors result |})
  end))).

(** [program.split(QRegExp("[\r\n]"))] *)
Definition is_line_break (c : ascii) : bool :=
  Ascii.eqb c "010" || Ascii.eqb c "013".

Fixpoint splitLines (s : string) : list string :=
  match s with
  | EmptyString => [""]
  | String c s' =>
      if is_line_break c then "" :: splitLines s'
      else
        match splitLines s' with
        | [] => [String c ""]
        | l :: ls => String c l :: ls
        end
  end.

Definition assembleString (program : string) : Abort + AssembleResult :=
  assemble (splitLines program).

(** The same function with the sequence of pass calls it makes. *)
Inductive Pass := Pass0 | Pass1 | Pass2 | Pass3.

Definition assemble_run (programLines : list string)
    : list Pass * (Abort + AssembleResult) :=
  let result := {| program := []; errors := [] |} in
  match pass0 programLines with
  | inl errs =>
      ([Pass0], runPass result (inl errs) (λ _ : Program, inr result))
  | inr tokenizedLines =>
  match pass1 tokenizedLines with
  | inl errs =>
      ([Pass0; Pass1],
       runPass result (inl errs) (λ _ : Program, inr result))
  | inr expandedLines =>
  let '(pass2_res, symbolMap, needsLinkage) := pass2 expandedLines ∅ [] in
  match pass2_res with
  | inl errs =>
      ([Pass0; Pass1; Pass2],
       runPass result (inl errs) (λ _ : QByteArray, inr result))
  | inr program =>
  ([Pass0; Pass1; Pass2; Pass3],
   match pass3 program symbolMap needsLinkage with
   | inl abort => inl abort
   | inr (pass3_res, program) =>
       runPass result pass3_res (λ _,
         inr {| program := program; errors := errors result |})
   end)
  end end end.

(** The passes called when pass [K] is the last one to run, and what it
    means for pass [K] to be reached and to return the [Errors]
    alternative. *)
Definition passes_through (K : Pass) : list Pass :=
  match K with
  | Pass0 => [Pass0]
  | Pass1 => [Pass0; Pass1]
  | Pass2 => [Pass0; Pass1; Pass2]
  | Pass3 => [Pass0; Pass1; Pass2; Pass3]
  end.

Definition pass_fails (programLines : list string) (K : Pass)
    (errs : Errors) : Prop :=
  match K with
  | Pass0 => pass0 programLines = inl errs
  | Pass1 =>
      ∃ tokenizedLines,
        pass0 programLines = inr tokenizedLines ∧
        pass1 tokenizedLines = inl errs
  | Pass2 =>
      ∃ tokenizedLines expandedLines symbolMap needsLinkage,
        pass0 programLines = inr tokenizedLines ∧
        pass1 tokenizedLines = inr expandedLines ∧
        pass2 expandedLines ∅ [] = (inl errs, symbolMap, needsLinkage)
  | Pass3 =>
      ∃ tokenizedLines expandedLines code symbolMap needsLinkage code',
        pass0 programLines = inr tokenizedLines ∧
        pass1 tokenizedLines = inr expandedLines ∧
        pass2 expandedLines ∅ [] = (inr code, symbolMap, needsLinkage) ∧
        pass3 code symbolMap needsLinkage = inr (inl errs, code')
  end.

(** *** [disassemble] *)

Inductive Exception :=
  | runtime_error (what : string)
  | bad_variant_access.

(** [std::get<I>] on a two-alternative variant. *)
Definition get_first {A B} (v : A + B) : Exception + A :=
  match v with
  | inl a => inr a
  | inr _ => inl bad_variant_access
  end.

Definition get_second {A B} (v : A + B) : Exception + B :=
  match v with
  | inl _ => inl bad_variant_access
  | inr b => inr b
  end.

(** The [while (i < program.size())] loop; [rest] is the part of the array
    from offset [i] on, a whole number of words.  An [inl] is an exception
    that leaves [disassemble]. *)
Fixpoint disassemble_loop (baseAddress : Z) (i : Z) (rest : QByteArray)
    (res : DisassembleResult) : Exception + DisassembleResult :=
  match rest with
  | b0 :: b1 :: b2 :: b3 :: rest' =>
      let instructionWord := bytes_word [b0; b1; b2; b3] in
      let match_ := matchInstruction instructionWord in
      match get_first match_ with
      | inr error =>
          (* Unknown instruction *)
          disassemble_loop baseAddress (i + 4) rest'
            {| dis_program := dis_program res;
               dis_errors := dis_errors res ++ [error] |}
      | inl _ =>
          (* Got match, disassemble *)
          match get_second match_ with
          | inl exn => inl exn
          | inr instr =>
              let tokens :=
                instr_disassemble instr instructionWord
                  (u32 (baseAddress + i)) ∅ in
              (* the inner [try] inspects [match] again, not [tokens] *)
              match get_first match_ with
              | inr error =>
                  disassemble_loop baseAddress (i + 4) rest'
                    {| dis_program := dis_program res;
                       dis_errors := dis_errors res ++ [error] |}
              | inl _ =>
                  match get_second tokens with
                  | inl exn => inl exn
                  | inr lineTokens =>
                      disassemble_loop baseAddress (i + 4) rest'
                        {| dis_program :=
                             dis_program res ++ [QString.join " " lineTokens];
                           dis_errors := dis_errors res |}
                  end
              end
          end
      end
  | _ => inr res
  end.

Definition disassemble (program : QByteArray) (baseAddress : Z)
    : Exception + DisassembleResult :=
  if bool_decide (Z.of_nat (length program) mod 4 ≠ 0) then
    inl (runtime_error "Program instructions unaligned with instruction size")
  else
    disassemble_loop baseAddress 0 program
      {| dis_program := []; dis_errors := [] |}.

End assembler.

Arguments pass0 : simpl never.
Arguments pass1 : simpl never.
Arguments pass2 : simpl never.
Arguments pass3 : simpl never.
Arguments assemble : simpl never.
Arguments disassemble : simpl never.

(** An instruction whose [disassemble] is never shown a symbol, and an
    assembler whose matcher only returns such instructions. *)
Definition without_symbols (instr : Instruction) : Instruction := {|
  instr_name := instr_name instr;
  instr_assemble := instr_assemble instr;
  instr_disassemble := λ w address _, instr_disassemble instr w address ∅
|}.

Definition symbol_blind (isa : AssemblerBase) : AssemblerBase := {|
  commentDelimiter := commentDelimiter;
  tokenize := tokenize;
  m_instructionMap := without_symbols <$> m_instructionMap;
  m_pseudoInstructionMap := m_pseudoInstructionMap;
  m_directivesMap := m_directivesMap;
  matchInstruction := λ w,
    match matchInstruction w with
    | inl e => inl e
    | inr instr => inr (without_symbols instr)
    end;
  NDEBUG := NDEBUG
|}.

(** ** The tables of the base class and their registration

    [setInstructions], [setPseudoInstructions], [setDirectives] and
    [initialize] fill the members of the object.  A setter that throws
    has already changed the members it has written: it returns the object
    as it leaves it, next to the exception if there is one. *)

Module Tables.

Record t := mk {
  m_instructions : list Instruction;
  m_instructionMap : gmap string Instruction;
  m_pseudoInstructions : list PseudoInstruction;
  m_pseudoInstructionMap : gmap string PseudoInstruction;
  m_directives : list Directive;
  m_directivesMap : gmap string Directive;
  m_matcher : option (Z → Error + Instruction)
}.

(** The members after the constructor [AssemblerBase<ISA>() {}]. *)
Definition fresh : t := mk [] ∅ [] ∅ [] ∅ None.

(** The loop of the three setters, which differ in the name they read
    and in the text of the exception [what]. *)
Fixpoint register {A} (name : A → string) (what : string → string)
    (items : list A) (map : gmap string A)
    : gmap string A * option Exception :=
  match items with
  | [] => (map, None)
  | iter :: rest =>
      if bool_decide (is_Some (map !! name iter)) then
        (map, Some (runtime_error (what (name iter))))
      else register name what rest (<[name iter := iter]> map)
  end.



Definition setInstructions (a : t) (instructions : list Instruction)
    : t * option Exception :=
  if bool_decide (m_instructions a ≠ []) then
    (a, Some (runtime_error "Instructions already set"))
  else
    let '(map, exn) :=
      register instr_name
        (λ instr_name, "Error: instruction with opcode " +:+
                       instr_name +:+ " has already been registerred.")
        instructions (m_instructionMap a) in
    (mk instructions map
        (m_pseudoInstructions a) (m_pseudoInstructionMap a)
        (m_directives a) (m_directivesMap a) (m_matcher a), exn).


End Tables.

(** ** A small concrete assembler

    An instance of the class for the examples below: a sixteen-register
    machine with two instructions, two pseudo-instructions and two
    directives.  Its lexer cuts a line at blanks, tabs and commas, and it
    is compiled with its [assert]s. *)

Module Toy.

Definition is_blank (c : ascii) : bool :=
  Ascii.eqb c " " || Ascii.eqb c "009" || Ascii.eqb c ",".

Fixpoint words_go (cur : string) (s : string) : list string :=
  match s with
  | EmptyString => if QString.isEmpty cur then [] else [String.rev cur]
  | String c s' =>
      if is_blank c then
        if QString.isEmpty cur then words_go "" s'
        else String.rev cur :: words_go "" s'
      else words_go (String c cur) s'
  end.

Definition lexer (line : string) : Error + LineTokens :=
  inr (words_go "" line).

(** Bits 7..11 of the word name the destination register; only
    [x0]..[x15] exist. *)
Definition rd_of (w : Z) : Z := Z.land (w ≫ 7) 31.

Definition decode_rd (w address : Z) : Error + string :=
  if bool_decide (rd_of w < 16) then inr ("x" +:+ pretty (rd_of w))
  else inl (mkError (Z.to_nat address) "Unknown register").

Definition addi : Instruction := {|
  instr_name := "addi";
  instr_assemble := λ line,
    match tokens line with
    | [_; _; _; _] => inr {| instruction := 19;
                       linksWithSymbol := {| field := None; symbol := "" |} |}
    | _ => inl (mkError (sourceLine line) "Invalid number of arguments")
    end;
  instr_disassemble := λ w address _,
    rd ←ᴱ decode_rd w address; inr ["addi"; rd]
|}.

(** The jump target is always a symbol; the link step adds the distance
    to it into bits 12 and up, and [disassemble] prints the symbol at the
    target when it is given one. *)
Definition jal_imm : Imm := {|
  applySymbolResolution := λ symbolValue instr address,
    instr + 4096 * (symbolValue - address)
|}.

Definition jal : Instruction := {|
  instr_name := "jal";
  instr_assemble := λ line,
    match tokens line with
    | [_; _; target] =>
        inr {| instruction := 111;
               linksWithSymbol := {| field := Some jal_imm;
                                     symbol := target |} |}
    | _ => inl (mkError (sourceLine line) "Invalid number of arguments")
    end;
  instr_disassemble := λ w address reverseSymbols,
    rd ←ᴱ decode_rd w address;
    let target := address + (w ≫ 12) in
    inr ["jal"; rd; default (pretty target) (reverseSymbols !! target)]
|}.

Definition nop : PseudoInstruction := {|
  pseudo_name := "nop";
  expand := λ _, inr (Some [["addi"; "x0"; "x0"; "0"]])
|}.

Definition li : PseudoInstruction := {|
  pseudo_name := "li";
  expand := λ line,
    match tokens line with
    | [_; rd; imm] =>
        inr (Some [["addi"; rd; "x0"; imm]; ["addi"; rd; rd; imm]])
    | _ => inl (mkError (sourceLine line) "Invalid number of arguments")
    end
|}.

Definition text : Directive := {|
  directive_name := ".text";
  handle := λ _, inr (Some [])
|}.

Definition zero4 : Directive := {|
  directive_name := ".zero4";
  handle := λ _, inr (Some [x00; x00; x00; x00])
|}.

Definition matcher (w : Z) : Error + Instruction :=
  if bool_decide (Z.land w 127 = 19) then inr addi
  else if bool_decide (Z.land w 127 = 111) then inr jal
  else inl (mkError 0 "Unknown instruction").

#[export] Instance assembler : AssemblerBase := {|
  commentDelimiter := "#";
  tokenize := lexer;
  m_instructionMap := <["addi" := addi]> (<["jal" := jal]> ∅);
  m_pseudoInstructionMap := <["nop" := nop]> (<["li" := li]> ∅);
  m_directivesMap := <[".text" := text]> (<[".zero4" := zero4]> ∅);
  matchInstruction := matcher;
  NDEBUG := false
|}.

End Toy.

(** The same assembler with one more directive, whose handler returns no
    value. *)
Module ToyData.

Definition data : Directive := {|
  directive_name := ".data";
  handle := λ _, inr None
|}.

Definition assembler : AssemblerBase := {|
  commentDelimiter := commentDelimiter (AssemblerBase := Toy.assembler);
  tokenize := tokenize (AssemblerBase := Toy.assembler);
  m_instructionMap := m_instructionMap (AssemblerBase := Toy.assembler);
  m_pseudoInstructionMap :=
    m_pseudoInstructionMap (AssemblerBase := Toy.assembler);
  m_directivesMap :=
    <[".data" := data]> (m_directivesMap (AssemblerBase := Toy.assembler));
  matchInstruction := matchInstruction (AssemblerBase := Toy.assembler);
  NDEBUG := NDEBUG (AssemblerBase := Toy.assembler)
|}.

End ToyData.

(** The same assembler with one more pseudo-instruction, which expands to
    no line at all. *)
Module ToyGone.

Definition gone : PseudoInstruction := {|
  pseudo_name := "gone";
  expand := λ _, inr (Some [])
|}.

Definition assembler : AssemblerBase := {|
  commentDelimiter := commentDelimiter (AssemblerBase := Toy.assembler);
  tokenize := tokenize (AssemblerBase := Toy.assembler);
  m_instructionMap := m_instructionMap (AssemblerBase := Toy.assembler);
  m_pseudoInstructionMap :=
    <["gone" := gone]>
      (m_pseudoInstructionMap (AssemblerBase := Toy.assembler));
  m_directivesMap := m_directivesMap (AssemblerBase := Toy.assembler);
  matchInstruction := matchInstruction (AssemblerBase := Toy.assembler);
  NDEBUG := NDEBUG (AssemblerBase := Toy.assembler)
|}.

End ToyGone.

(** * Properties *)

(** ** Generic facts about the containers and the error bind *)

Lemma elem_of_set_iter (s : string) (S : gset string) :
  s ∈ set_iter S ↔ s ∈ S.
Proof.
  unfold set_iter. rewrite merge_sort_Permutation. apply elem_of_elements.
Qed.

Lemma bindE_inr {E A B} (m : E + A) (k : A → E + B) (b : B) :
  bindE m k = inr b → ∃ a, m = inr a ∧ k a = inr b.
Proof. destruct m as [e|a]; simpl; [discriminate | eauto]. Qed.

(** ** The line classifier *)

Section classifier_facts.

Lemma splitSymbols_loop_inr (n : nat) (toks : LineTokens) :
  ∀ (rem : LineTokens) (syms : Symbols) (allowed : bool) r_syms r_rest,
    splitSymbols_loop n toks rem syms allowed = inr (r_syms, r_rest) →
    ∃ defs others,
      toks = defs ++ others ∧
      Forall (λ t, QString.contains ":" t = true) defs ∧
      Forall (λ t, QString.contains ":" t = false) others ∧
      r_rest = rem ++ others ∧
      r_syms = list_to_set (QString.remove ":" <$> defs) ∪ syms ∧
      (allowed = false → defs = []).
Proof.
  induction toks as [|t toks IH]; intros rem syms allowed r_syms r_rest Hloop;
    simpl in Hloop.
  - injection Hloop as <- <-. exists [], [].
    split_and!; try done; try (by constructor);
      [by rewrite app_nil_r | set_solver].
  - destruct (QString.contains ":" t) eqn:Hcolon.
    + destruct allowed; [|discriminate].
      case_decide; [discriminate|].
      apply IH in Hloop as (defs & others & -> & Hd & Ho & -> & -> & _).
      exists (t :: defs), others.
      split_and!; try done; try (by constructor).
      rewrite fmap_cons, list_to_set_cons. set_solver.
    + apply IH in Hloop as (defs & others & -> & Hd & Ho & -> & -> & Hnil).
      rewrite (Hnil eq_refl). exists [], (t :: others).
      rewrite <- app_assoc.
      split_and!; try done; try (by constructor); set_solver.
Qed.

Lemma filter_defs_others (defs others : LineTokens) :
  Forall (λ t, QString.contains ":" t = true) defs →
  Forall (λ t, QString.contains ":" t = false) others →
  filter (λ t, QString.contains ":" t = false) (defs ++ others) = others.
Proof.
  intros Hd Ho. induction Hd as [|t l Ht _ IH].
  - simpl. induction Ho as [|t l Ht _ IH]; [done|].
    rewrite filter_cons, decide_True by done. by rewrite IH.
  - simpl. rewrite filter_cons, decide_False by congruence. done.
Qed.

(** A successful symbol split: the definitions come first, then the
    tokens without a colon. *)
Lemma splitSymbolsFromLine_parts (tokens : LineTokens) (n : nat)
    (syms : Symbols) (rest : LineTokens) :
  splitSymbolsFromLine tokens n = inr (syms, rest) →
  ∃ defs,
    tokens = defs ++ rest ∧
    Forall (λ t, QString.contains ":" t = true) defs ∧
    Forall (λ t, QString.contains ":" t = false) rest ∧
    syms = list_to_set (QString.remove ":" <$> defs).
Proof.
  intros Hsplit. destruct tokens as [|t ts].
  - injection Hsplit as <- <-. exists []. by split_and!.
  - apply splitSymbols_loop_inr in Hsplit
      as (defs & others & ? & ? & ? & ? & ? & _).
    exists defs. simplify_eq. split_and!; try done. set_solver.
Qed.

End classifier_facts.

(** ** Symbol definitions on a line *)

(** C8, as the code has it.  When [splitSymbolsFromLine] succeeds, a token
    is taken as a symbol definition exactly when it contains a [':']
    anywhere: the remaining tokens are the tokens without a colon, in
    order, and the symbols are the tokens with a colon, every [':']
    removed. *)
Theorem splitSymbolsFromLine_inr (tokens : LineTokens) (n : nat)
    (syms : Symbols) (rest : LineTokens) :
  splitSymbolsFromLine tokens n = inr (syms, rest) →
  rest = filter (λ t, QString.contains ":" t = false) tokens ∧
  ∀ s, s ∈ syms ↔
       ∃ t, t ∈ tokens ∧ QString.contains ":" t = true ∧
            s = QString.remove ":" t.
Proof.
  intros (defs & -> & Hd & Ho & ->)%splitSymbolsFromLine_parts.
  split; [by rewrite filter_defs_others|].
  intros s. rewrite elem_of_list_to_set, list_elem_of_fmap. split.
  - intros (t & -> & Ht). exists t. split_and!; try done.
    + apply elem_of_app. by left.
    + by apply (proj1 (Forall_forall _ _) Hd).
  - intros (t & [Ht|Ht]%elem_of_app & Hc & ->).
    + by exists t.
    + apply (proj1 (Forall_forall _ _) Ho) in Ht. congruence.
Qed.

Lemma splitSymbolsFromLine_inr_witness :
  [ "x" ] = filter (λ t, QString.contains ":" t = false) ["a:b"; "x"] ∧
  ∀ s, s ∈ ({["ab"]} : Symbols) ↔
       ∃ t, t ∈ ["a:b"; "x"] ∧ QString.contains ":" t = true ∧
            s = QString.remove ":" t.
Proof.
  apply (splitSymbolsFromLine_inr ["a:b"; "x"] 0 {["ab"]} ["x"]).
  vm_compute. reflexivity.
Defined.

(** C8 as the spec words it fails at the token [a:b]: its colon is not at
    the end, yet it is taken as the definition of [ab]. *)
Lemma splitSymbolsFromLine_inner_colon :
  splitSymbolsFromLine ["a:b"; "x"] 0 = inr ({["ab"]}, ["x"]) ∧
  ¬ (∀ tokens n syms rest,
       splitSymbolsFromLine tokens n = inr (syms, rest) →
       ∀ s, s ∈ syms ↔
            ∃ t, t ∈ tokens ∧ QString.endsWith ":" t = true ∧
                 s = QString.chop1 t).
Proof.
  split; [by vm_compute|].
  intros Hclaim.
  destruct (proj1 (Hclaim ["a:b"; "x"] 0%nat {["ab"]} ["x"] eq_refl "ab"))
    as (t & Ht & Hend & _); [set_solver|].
  apply elem_of_cons in Ht as [->|Ht]; [discriminate|].
  apply elem_of_cons in Ht as [->|Ht]; [discriminate|].
  by apply elem_of_nil in Ht.
Qed.

(** ** The pass pipeline *)

Section pipeline.
Context {isa : AssemblerBase}.

(** Each pass returns the [Errors] alternative only with at least one
    error in it. *)
Lemma pass0_inl (programLines : list string) (errs : Errors) :
  pass0 programLines = inl errs → errs ≠ [].
Proof. unfold pass0. case_bool_decide; congruence. Qed.

Lemma pass1_inl (tokenizedLines : Program) (errs : Errors) :
  pass1 tokenizedLines = inl errs → errs ≠ [].
Proof. unfold pass1. case_bool_decide; congruence. Qed.

Lemma pass2_inl (lines : Program) (sm0 : SymbolMap) (l0 : LinkRequests)
    errs sm links :
  pass2 lines sm0 l0 = (inl errs, sm, links) → errs ≠ [].
Proof. unfold pass2. case_bool_decide; congruence. Qed.

Lemma pass3_inl (code : QByteArray) (sm : SymbolMap) (links : LinkRequests)
    errs code' :
  pass3 code sm links = inr (inl errs, code') → errs ≠ [].
Proof.
  unfold pass3. destruct (pass3_loop _ _ _) as [abort|st]; [done|].
  cbn [bindE]. case_bool_decide; congruence.
Qed.

Lemma assemble_run_snd (programLines : list string) :
  (assemble_run programLines).2 = assemble programLines.
Proof.
  unfold assemble_run, assemble.
  destruct (pass0 programLines) as [?|tl]; cbn -[pass1 pass2 pass3]; [done|].
  destruct (pass1 tl) as [?|el]; cbn -[pass2 pass3]; [done|].
  destruct (pass2 el ∅ []) as [[[?|code] sm] links]; cbn -[pass3]; [done|].
  by destruct (pass3 code sm links) as [?|[[?|?] ?]].
Qed.

(** C1.  When pass [K] is reached and returns errors, [assemble] returns
    exactly these errors and an empty program, and the passes it has
    called are the passes up to [K]. *)
Theorem assemble_short_circuit (programLines : list string) (K : Pass)
    (errs : Errors) :
  pass_fails programLines K errs →
  errs ≠ [] ∧
  assemble programLines = inr {| program := []; errors := errs |} ∧
  assemble_run programLines = (passes_through K, assemble programLines).
Proof.
  intros Hfail.
  assert (errs ≠ [] ∧
          assemble_run programLines =
            (passes_through K, inr {| program := []; errors := errs |}))
    as [Hne Hrun].
  { unfold assemble_run. destruct K; simpl in Hfail.
    - rewrite Hfail. eauto using pass0_inl.
    - destruct Hfail as (tl & -> & Hfail). rewrite Hfail.
      eauto using pass1_inl.
    - destruct Hfail as (tl & el & sm & links & -> & -> & Hfail).
      rewrite Hfail. eauto using pass2_inl.
    - destruct Hfail as (tl & el & code & sm & links & code' & -> & -> & -> & Hfail).
      rewrite Hfail. eauto using pass3_inl. }
  rewrite <- assemble_run_snd, Hrun. done.
Qed.

End pipeline.

Lemma assemble_short_circuit_witness :
  assemble_run (isa := Toy.assembler) ["x y:"] =
    ([Pass0],
     inr {| program := []; errors := [mkError 0 "Stray ':' in line"] |}) ∧
  assemble_run (isa := Toy.assembler) ["li x1"] =
    ([Pass0; Pass1],
     inr {| program := [];
            errors := [mkError 0 "Invalid number of arguments"] |}) ∧
  assemble_run (isa := Toy.assembler)
      ["a: addi x1,x0,0"; "a: addi x2,x0,0"] =
    ([Pass0; Pass1; Pass2],
     inr {| program := [];
            errors := [mkError 1 "Multiple definitions of symbol 'a'"] |}) ∧
  assemble_run (isa := Toy.assembler) ["addi x1,x0,0"; "jal ra,nowhere"] =
    ([Pass0; Pass1; Pass2; Pass3],
     inr {| program := [];
            errors := [mkError 1 "Unknown symbol 'nowhere'"] |}).
Proof.
  assert (∀ programLines K errs,
            pass_fails (isa := Toy.assembler) programLines K errs →
            assemble_run (isa := Toy.assembler) programLines =
              (passes_through K, inr {| program := []; errors := errs |}))
    as Hrun.
  { intros programLines K errs Hfail.
    destruct (assemble_short_circuit programLines K errs Hfail)
      as (_ & Hasm & Hrun).
    by rewrite Hrun, Hasm. }
  split_and!.
  - apply (Hrun _ Pass0). by vm_compute.
  - apply (Hrun _ Pass1). simpl.
    let r := eval vm_compute in (pass0 (isa := Toy.assembler) ["li x1"]) in
    match r with inr ?tl => exists tl end.
    split; by vm_compute.
  - apply (Hrun _ Pass2). simpl.
    let r := eval vm_compute in
      (pass0 (isa := Toy.assembler) ["a: addi x1,x0,0"; "a: addi x2,x0,0"]) in
    match r with inr ?tl =>
      exists tl;
      let r := eval vm_compute in (pass1 (isa := Toy.assembler) tl) in
      match r with inr ?el =>
        exists el;
        let r := eval vm_compute in (pass2 (isa := Toy.assembler) el ∅ []) in
        match r with (_, ?sm, ?links) => exists sm, links end
      end
    end.
    split_and!; by vm_compute.
  - apply (Hrun _ Pass3). simpl.
    let r := eval vm_compute in
      (pass0 (isa := Toy.assembler) ["addi x1,x0,0"; "jal ra,nowhere"]) in
    match r with inr ?tl =>
      exists tl;
      let r := eval vm_compute in (pass1 (isa := Toy.assembler) tl) in
      match r with inr ?el =>
        exists el;
        let r := eval vm_compute in (pass2 (isa := Toy.assembler) el ∅ []) in
        match r with (inr ?code, ?sm, ?links) =>
          exists code, sm, links;
          let r := eval vm_compute in
            (pass3 (isa := Toy.assembler) code sm links) in
          match r with inr (_, ?code') => exists code' end
        end
      end
    end.
    split_and!; by vm_compute.
Defined.

(** ** Pass 1 *)

Section pass1_facts.
Context {isa : AssemblerBase}.

(** What the loop adds does not depend on the state it starts from. *)
Lemma pass1_loop_frame (lines : Program) :
  ∃ errs out, ∀ st,
    pass1_loop lines st =
      mkPass1 (p1_errors st ++ errs) (p1_expandedLines st ++ out).
Proof.
  unfold pass1_loop.
  induction lines as [|line lines (errs & out & IH)]; simpl.
  - exists [], []. intros [e l]. simpl. by rewrite !app_nil_r.
  - unfold pass1_step at 2.
    destruct (expandPseudoOp line) as [e|[eops|]].
    + exists (e :: errs), out. intros st. rewrite IH. simpl.
      by rewrite <- app_assoc.
    + exists errs, (pass1_expansion line eops ++ out). intros st.
      rewrite IH. simpl. by rewrite <- app_assoc.
    + exists errs, (line :: out). intros st. rewrite IH. simpl.
      by rewrite <- app_assoc.
Qed.

Lemma pass1_inr (lines : Program) (out : Program) :
  pass1 lines = inr out ↔
  pass1_loop lines (mkPass1 [] []) = mkPass1 [] out.
Proof.
  unfold pass1. destruct (pass1_loop lines _) as [e l]. simpl.
  case_bool_decide as He; split; intros Heq; by simplify_eq.
Qed.

Lemma pass1_expansion_lookup (line : TokenizedSrcLine)
    (eops : list LineTokens) (j : nat) :
  pass1_expansion line eops !! j =
    (λ eop, mkTSL (sourceLine line)
              (if decide (j = 0%nat) then symbols line else ∅)
              (if decide (j = 0%nat) then directives line else ∅) eop)
      <$> eops !! j.
Proof. unfold pass1_expansion. by rewrite list_lookup_imap. Qed.

(** The lines pass 1 emits for a list are those of its first part, then
    those of the next line, then the rest. *)
Lemma pass1_app_inr (pre post : Program) (line : TokenizedSrcLine)
    (out : Program) :
  pass1 (pre ++ line :: post) = inr out →
  ∃ before mid after,
    pass1 pre = inr before ∧
    pass1_step (mkPass1 [] []) line = mkPass1 [] mid ∧
    out = before ++ mid ++ after.
Proof.
  rewrite pass1_inr. unfold pass1_loop. rewrite foldl_app. simpl.
  destruct (pass1_loop_frame pre) as (e1 & l1 & Hpre).
  destruct (pass1_loop_frame [line]) as (e2 & l2 & Hline).
  destruct (pass1_loop_frame post) as (e3 & l3 & Hpost).
  unfold pass1_loop in *. simpl in Hline.
  rewrite Hpost, Hline, Hpre. simpl. intros [= He <-].
  apply app_eq_nil in He as [[-> ->]%app_eq_nil ->].
  exists l1, l2, l3. split_and!.
  - apply pass1_inr. unfold pass1_loop. by rewrite Hpre.
  - by rewrite Hline.
  - by rewrite <- app_assoc.
Qed.

(** C9.  A line that [expandPseudoOp] rewrites into the ops [eops] gives
    one expanded line per op, in order, right after the lines of what
    precedes it.  Each has the source line index of the original; the
    first has its symbols and directives and the others have none. *)
Theorem pass1_attribution (pre post : Program)
    (tokenizedLine : TokenizedSrcLine) (eops : list LineTokens)
    (expandedLines : Program) :
  expandPseudoOp tokenizedLine = inr (Some eops) →
  pass1 (pre ++ tokenizedLine :: post) = inr expandedLines →
  ∃ before expanded after,
    pass1 pre = inr before ∧
    expandedLines = before ++ expanded ++ after ∧
    length expanded = length eops ∧
    ∀ j eop, eops !! j = Some eop →
      ∃ tsl, expanded !! j = Some tsl ∧
        tokens tsl = eop ∧
        sourceLine tsl = sourceLine tokenizedLine ∧
        (j = 0%nat → symbols tsl = symbols tokenizedLine ∧
                     directives tsl = directives tokenizedLine) ∧
        (j ≠ 0%nat → symbols tsl = ∅ ∧ directives tsl = ∅).
Proof.
  intros Hexp (before & mid & after & Hpre & Hstep & ->)%pass1_app_inr.
  unfold pass1_step in Hstep. rewrite Hexp in Hstep.
  injection Hstep as <-.
  exists before, (pass1_expansion tokenizedLine eops), after.
  split_and!; [done | done | apply length_imap |].
  intros j eop Hj. rewrite pass1_expansion_lookup, Hj. simpl.
  eexists. split; [done|]. simpl.
  split_and!; [done | done | |]; intros ?; by case_decide.
Qed.

End pass1_facts.

Lemma pass1_attribution_witness :
  let line := mkTSL 3 {["foo"]} {[".text"]} ["li"; "x5"; "7"] in
  ∃ before expanded after,
    pass1 (isa := Toy.assembler) [] = inr before ∧
    [mkTSL 3 {["foo"]} {[".text"]} ["addi"; "x5"; "x0"; "7"];
     mkTSL 3 ∅ ∅ ["addi"; "x5"; "x5"; "7"]] = before ++ expanded ++ after ∧
    length expanded = 2%nat ∧
    ∀ j eop,
      [["addi"; "x5"; "x0"; "7"]; ["addi"; "x5"; "x5"; "7"]] !! j = Some eop →
      ∃ tsl, expanded !! j = Some tsl ∧
        tokens tsl = eop ∧
        sourceLine tsl = sourceLine line ∧
        (j = 0%nat → symbols tsl = symbols line ∧
                     directives tsl = directives line) ∧
        (j ≠ 0%nat → symbols tsl = ∅ ∧ directives tsl = ∅).
Proof.
  intros line.
  apply (pass1_attribution (isa := Toy.assembler) [] [] line
           [["addi"; "x5"; "x0"; "7"]; ["addi"; "x5"; "x5"; "7"]]).
  - by vm_compute.
  - by vm_compute.
Defined.

(** ** Pass 0 *)

Section pass0_facts.
Context {isa : AssemblerBase}.

Lemma splitDirectives_loop_inr (n : nat) (toks : LineTokens) :
  ∀ (rem : LineTokens) (dirs : Directives) (allowed : bool) r_dirs r_rest,
    splitDirectives_loop n toks rem dirs allowed = inr (r_dirs, r_rest) →
    ∃ ds others,
      toks = ds ++ others ∧
      Forall (λ t, QString.startsWith "." t = true) ds ∧
      Forall (λ t, QString.startsWith "." t = false) others ∧
      r_rest = rem ++ others ∧
      r_dirs = list_to_set ds ∪ dirs ∧
      (allowed = false → ds = []).
Proof.
  induction toks as [|t toks IH]; intros rem dirs allowed r_dirs r_rest Hloop;
    simpl in Hloop.
  - injection Hloop as <- <-. exists [], [].
    split_and!; try done; try (by constructor);
      [by rewrite app_nil_r | set_solver].
  - destruct (QString.startsWith "." t) eqn:Hdot.
    + destruct allowed; [|discriminate].
      apply IH in Hloop as (ds & others & -> & Hd & Ho & -> & -> & _).
      exists (t :: ds), others.
      split_and!; try done; try (by constructor).
      rewrite list_to_set_cons. set_solver.
    + apply IH in Hloop as (ds & others & -> & Hd & Ho & -> & -> & Hnil).
      rewrite (Hnil eq_refl). exists [], (t :: others).
      rewrite <- app_assoc.
      split_and!; try done; try (by constructor); set_solver.
Qed.

Lemma splitDirectivesFromLine_inr (toks : LineTokens) (n : nat)
    (dirs : Directives) (rest : LineTokens) :
  splitDirectivesFromLine toks n = inr (dirs, rest) →
  ∃ ds, toks = ds ++ rest ∧
        Forall (λ t, QString.startsWith "." t = true) ds ∧
        Forall (λ t, QString.startsWith "." t = false) rest ∧
        dirs = list_to_set ds.
Proof.
  destruct toks as [|t ts].
  - intros [= <- <-]. exists []. split_and!; by try constructor.
  - intros (ds & others & ? & ? & ? & ? & ? & _)%splitDirectives_loop_inr.
    exists ds. simplify_eq. split_and!; try done. set_solver.
Qed.

(** The comment cut keeps the tokens before the first one that holds the
    delimiter. *)
Lemma splitComment_loop_spec (toks pre : LineTokens) :
  ∃ kept cut,
    toks = kept ++ cut ∧
    splitComment_loop toks pre = pre ++ kept ∧
    Forall (λ t, QString.contains commentDelimiter t = false) kept ∧
    (cut = [] ∨
     ∃ t cut', cut = t :: cut' ∧ QString.contains commentDelimiter t = true).
Proof.
  revert pre. induction toks as [|t toks IH]; intros pre; simpl.
  - exists [], [].
    split_and!; rewrite ?app_nil_r; try done; try (by constructor); auto.
  - destruct (QString.contains commentDelimiter t) eqn:Hc.
    + exists [], (t :: toks).
      split_and!; rewrite ?app_nil_r; try done; try (by constructor); eauto.
    + destruct (IH (pre ++ [t])) as (kept & cut & -> & -> & Hk & Hcut).
      exists (t :: kept), cut. rewrite <- app_assoc.
      split_and!; try done; try (by constructor); auto.
Qed.

Lemma splitCommentFromLine_inr (toks : LineTokens) (n : nat) :
  splitCommentFromLine toks n = inr (splitComment_loop toks []).
Proof. by destruct toks. Qed.

(** One iteration that gets through its four operations. *)
Lemma pass0_line_inr (i : nat) (line : string) (tsl : TokenizedSrcLine) :
  pass0_line i line = inr tsl →
  ∃ toks syms rest dirs rest',
    tokenize line = inr toks ∧
    splitSymbolsFromLine toks i = inr (syms, rest) ∧
    splitDirectivesFromLine rest i = inr (dirs, rest') ∧
    tsl = mkTSL i syms dirs (splitComment_loop rest []).
Proof.
  unfold pass0_line.
  intros (toks & Htok & ([syms rest] & Hsym &
    ([dirs rest'] & Hdir & (rem & Hrem & Heq)%bindE_inr)%bindE_inr
    )%bindE_inr)%bindE_inr.
  simpl in *. rewrite splitCommentFromLine_inr in Hrem.
  exists toks, syms, rest, dirs, rest'. by simplify_eq.
Qed.

(** The line index only shows in the error messages and in [sourceLine]. *)
Lemma splitSymbols_loop_index (n m : nat) (toks : LineTokens) :
  ∀ rem syms allowed r,
    splitSymbols_loop n toks rem syms allowed = inr r →
    splitSymbols_loop m toks rem syms allowed = inr r.
Proof.
  induction toks as [|t toks IH]; intros rem syms allowed r; simpl; [done|].
  repeat case_match; try done; apply IH.
Qed.

Lemma splitDirectives_loop_index (n m : nat) (toks : LineTokens) :
  ∀ rem dirs allowed r,
    splitDirectives_loop n toks rem dirs allowed = inr r →
    splitDirectives_loop m toks rem dirs allowed = inr r.
Proof.
  induction toks as [|t toks IH]; intros rem dirs allowed r; simpl; [done|].
  repeat case_match; try done; apply IH.
Qed.

Lemma pass0_line_index (i j : nat) (line : string) (tsl : TokenizedSrcLine) :
  pass0_line i line = inr tsl →
  pass0_line j line =
    inr (mkTSL j (symbols tsl) (directives tsl) (tokens tsl)).
Proof.
  intros (toks & syms & rest & dirs & rest' & Htok & Hsym & Hdir & ->)
    %pass0_line_inr.
  unfold pass0_line. rewrite Htok. simpl.
  assert (splitSymbolsFromLine toks j = inr (syms, rest)) as ->.
  { destruct toks; [done|]. by eapply splitSymbols_loop_index. }
  simpl.
  assert (splitDirectivesFromLine rest j = inr (dirs, rest')) as ->.
  { destruct rest; [done|]. by eapply splitDirectives_loop_index. }
  simpl. by rewrite splitCommentFromLine_inr.
Qed.

Lemma pass0_loop_app (i : nat) (l1 l2 : list string) (st : Pass0State) :
  pass0_loop i (l1 ++ l2) st =
    pass0_loop (i + length l1) l2 (pass0_loop i l1 st).
Proof.
  revert i st. induction l1 as [|line l1 IH]; intros i st; simpl.
  - by rewrite Nat.add_0_r.
  - rewrite IH. f_equal. lia.
Qed.

(** What the loop adds to the errors and to the lines depends on the
    carry it starts with, and on nothing else of the state. *)
Lemma pass0_loop_frame (lines : list string) :
  ∀ i carry, ∃ errs out carry', ∀ e t,
    pass0_loop i lines (mkPass0 e t carry) =
      mkPass0 (e ++ errs) (t ++ out) carry'.
Proof.
  induction lines as [|line lines IH]; intros i carry; simpl.
  - exists [], [], carry. intros e t. by rewrite !app_nil_r.
  - unfold pass0_step. simpl.
    destruct (QString.isEmpty line); [apply IH|].
    destruct (pass0_line i line) as [err|tsl].
    { destruct (IH (S i) carry) as (errs & out & carry' & Hloop).
      exists (err :: errs), out, carry'. intros e t.
      by rewrite Hloop, <- app_assoc. }
    destruct (bool_decide (symbols tsl ≠ ∅) && bool_decide (tokens tsl = [])).
    { apply IH. }
    destruct (bool_decide (tokens tsl ≠ [])).
    + destruct (IH (S i) ∅) as (errs & out & carry' & Hloop).
      eexists errs, (_ :: out), carry'. intros e t.
      by rewrite Hloop, <- app_assoc.
    + destruct (IH (S i) carry) as (errs & out & carry' & Hloop).
      exists errs, (tsl :: out), carry'. intros e t.
      by rewrite Hloop, <- app_assoc.
Qed.

Lemma pass0_inr (lines : list string) (out : Program) :
  pass0 lines = inr out ↔
  ∃ carry, pass0_loop 0 lines (mkPass0 [] [] ∅) = mkPass0 [] out carry.
Proof.
  unfold pass0. destruct (pass0_loop 0 lines _) as [e l c]. simpl.
  case_bool_decide as He; split.
  - done.
  - intros (carry & Heq). by simplify_eq.
  - intros Heq. exists c. by simplify_eq.
  - intros (carry & Heq). by simplify_eq.
Qed.

(** Where each line of the staged program comes from. *)
Lemma pass0_loop_origin (lines : list string) :
  ∀ i st tsl,
    tsl ∈ p0_tokenizedLines (pass0_loop i lines st) →
    tsl ∈ p0_tokenizedLines st ∨
    ∃ k line tsl0,
      lines !! k = Some line ∧ sourceLine tsl = (i + k)%nat ∧
      pass0_line (i + k) line = inr tsl0 ∧
      tokens tsl = tokens tsl0 ∧ directives tsl = directives tsl0.
Proof.
  induction lines as [|line lines IH]; intros i st tsl; simpl; [by left|].
  intros [Hin|(k & line' & tsl0 & Hk & Hsl & Hline & Htok & Hdir)]%IH.
  - unfold pass0_step in Hin.
    destruct (QString.isEmpty line); [by left|].
    destruct (pass0_line i line) as [err|tsl0] eqn:Hline; [by left|].
    destruct (_ && _); [by left|].
    destruct (bool_decide (tokens tsl0 ≠ [])); simpl in Hin;
      apply elem_of_app in Hin as [Hin|Hin%list_elem_of_singleton];
      try (by left); right; exists 0%nat, line, tsl0; subst tsl; simpl;
      rewrite Nat.add_0_r.
    + apply pass0_line_inr in Hline as Hparts.
      destruct Hparts as (? & ? & ? & ? & ? & _ & _ & _ & ->). done.
    + apply pass0_line_inr in Hline as Hparts.
      destruct Hparts as (? & ? & ? & ? & ? & _ & _ & _ & ->). done.
  - right. exists (S k), line', tsl0. simpl.
    replace (i + S k)%nat with (S i + k)%nat by lia. done.
Qed.

End pass0_facts.

(** ** Lines that hold no colon, no leading dot and no comment *)

Section plain_lines.
Context {isa : AssemblerBase}.

Lemma splitSymbols_loop_plain (n : nat) (toks : LineTokens) :
  ∀ rem syms b,
    Forall (λ t, QString.contains ":" t = false) toks →
    splitSymbols_loop n toks rem syms b = inr (syms, rem ++ toks).
Proof.
  induction toks as [|t toks IH]; intros rem syms b Hall; simpl;
    [by rewrite app_nil_r|].
  apply Forall_cons in Hall as [-> Hall].
  rewrite IH by done. by rewrite <- app_assoc.
Qed.

Lemma splitDirectives_loop_plain (n : nat) (toks : LineTokens) :
  ∀ rem dirs b,
    Forall (λ t, QString.startsWith "." t = false) toks →
    splitDirectives_loop n toks rem dirs b = inr (dirs, rem ++ toks).
Proof.
  induction toks as [|t toks IH]; intros rem dirs b Hall; simpl;
    [by rewrite app_nil_r|].
  apply Forall_cons in Hall as [-> Hall].
  rewrite IH by done. by rewrite <- app_assoc.
Qed.

Lemma splitComment_loop_plain (toks : LineTokens) :
  ∀ pre,
    Forall (λ t, QString.contains commentDelimiter t = false) toks →
    splitComment_loop toks pre = pre ++ toks.
Proof.
  induction toks as [|t toks IH]; intros pre Hall; simpl;
    [by rewrite app_nil_r|].
  apply Forall_cons in Hall as [-> Hall].
  rewrite IH by done. by rewrite <- app_assoc.
Qed.



End plain_lines.

Lemma filter_true_prefix (f : string → bool) (ds others : LineTokens) :
  Forall (λ t, f t = true) ds →
  Forall (λ t, f t = false) others →
  filter (λ t, f t = true) (ds ++ others) = ds.
Proof.
  intros Hd Ho. induction Hd as [|t l Ht _ IH].
  - simpl. induction Ho as [|t l Ht _ IH]; [done|].
    rewrite filter_cons, decide_False by congruence. done.
  - simpl. rewrite filter_cons, decide_True by done. by rewrite IH.
Qed.

Section staged_lines.
Context {isa : AssemblerBase}.

(** C6, as the code has it.  A line of the staged program comes from the
    source line of its index.  Its tokens are that line's tokens without
    the symbol definitions (the tokens holding a [':']), up to the first
    token that holds the comment delimiter.  The directive tokens are not
    taken out: the directive set lists the tokens with a leading ['.']
    among these same tokens. *)
Theorem pass0_tokens (programLines : list string) (tokenizedLines : Program)
    (tsl : TokenizedSrcLine) :
  pass0 programLines = inr tokenizedLines →
  tsl ∈ tokenizedLines →
  ∃ line toks cut,
    programLines !! sourceLine tsl = Some line ∧
    tokenize line = inr toks ∧
    filter (λ t, QString.contains ":" t = false) toks = tokens tsl ++ cut ∧
    Forall (λ t, QString.contains commentDelimiter t = false) (tokens tsl) ∧
    (cut = [] ∨
     ∃ t cut', cut = t :: cut' ∧
               QString.contains commentDelimiter t = true) ∧
    directives tsl =
      list_to_set (filter (λ t, QString.startsWith "." t = true)
                     (tokens tsl ++ cut)).
Proof.
  intros (carry & Hloop)%pass0_inr Hin.
  assert (tsl ∈ p0_tokenizedLines
            (pass0_loop 0 programLines (mkPass0 [] [] ∅))) as Hin'
    by by rewrite Hloop.
  apply pass0_loop_origin in Hin'
    as [Hin'|(k & line & tsl0 & Hk & Hsl & Hline & Htok & Hdir)].
  { by apply elem_of_nil in Hin'. }
  simpl in Hsl, Hline. subst k.
  apply pass0_line_inr in Hline
    as (toks & syms & rest & dirs & rest' & Htoks & Hsym & Hdirs & ->).
  simpl in Htok, Hdir.
  apply splitSymbolsFromLine_parts in Hsym as (defs & Htoks' & Hdf & Hof & _).
  assert (rest = filter (λ t, QString.contains ":" t = false) toks) as Hrest
    by by rewrite Htoks', filter_defs_others.
  apply splitDirectivesFromLine_inr in Hdirs as (ds & Hds & Hd & Ho & ->).
  destruct (splitComment_loop_spec rest [])
    as (kept & cut & Hkc & Hkept & Hnc & Hcut).
  simpl in Hkept. rewrite Hkept in Htok.
  exists line, toks, cut. rewrite Htok, Hdir, <- Hkc, <- Hrest.
  split_and!; try done.
  rewrite Hds at 1. by rewrite filter_true_prefix.
Qed.

(** C7: the code at a comment-only line.  Pass 0 stages the line with no
    tokens, and pass 2 rejects it. *)
Theorem comment_only_line (line : string) (t0 : string) (ts : LineTokens) :
  QString.isEmpty line = false →
  tokenize line = inr (t0 :: ts) →
  QString.contains commentDelimiter t0 = true →
  Forall (λ t, QString.contains ":" t = false ∧
               QString.startsWith "." t = false) (t0 :: ts) →
  assemble [line] =
    inr {| program := [];
           errors := [mkError 0
             "Empty source lines should be impossible at this point"] |}.
Proof.
  intros Hne Htok Hc Hplain.
  assert (Forall (λ t, QString.contains ":" t = false) (t0 :: ts)) as Hp1
    by (eapply Forall_impl; [exact Hplain|]; naive_solver).
  assert (Forall (λ t, QString.startsWith "." t = false) (t0 :: ts)) as Hp2
    by (eapply Forall_impl; [exact Hplain|]; naive_solver).
  assert (pass0 [line] = inr [mkTSL 0 ∅ ∅ []]) as Hp0.
  { unfold pass0. simpl. unfold pass0_step. rewrite Hne.
    unfold pass0_line. rewrite Htok. cbn [bindE].
    change (splitSymbolsFromLine (t0 :: ts) 0)
      with (splitSymbols_loop 0 (t0 :: ts) [] ∅ true).
    rewrite splitSymbols_loop_plain by done. cbn [bindE fst snd app].
    change (splitDirectivesFromLine (t0 :: ts) 0)
      with (splitDirectives_loop 0 (t0 :: ts) [] ∅ true).
    rewrite splitDirectives_loop_plain by done.
    simpl. rewrite Hc. simpl. done. }
  unfold assemble. rewrite Hp0. simpl.
  unfold pass1. simpl. unfold pass1_step, expandPseudoOp. simpl.
  unfold pass2. simpl. unfold pass2_step. simpl. done.
Qed.

End staged_lines.

Lemma pass0_tokens_witness :
  let isa := Toy.assembler in
  let tsl := mkTSL 0 {["foo"]} {[".zero4"]} [".zero4"] in
  ∃ line toks cut,
    ["foo: .zero4 # c"] !! sourceLine tsl = Some line ∧
    tokenize line = inr toks ∧
    filter (λ t, QString.contains ":" t = false) toks = tokens tsl ++ cut ∧
    Forall (λ t, QString.contains commentDelimiter t = false) (tokens tsl) ∧
    (cut = [] ∨
     ∃ t cut', cut = t :: cut' ∧
               QString.contains commentDelimiter t = true) ∧
    directives tsl =
      list_to_set (filter (λ t, QString.startsWith "." t = true)
                     (tokens tsl ++ cut)).
Proof.
  intros isa tsl.
  apply (pass0_tokens (isa := isa) ["foo: .zero4 # c"] [tsl] tsl).
  - by vm_compute.
  - set_solver.
Defined.

(** C6 as the spec words it fails at the line [.text]: the token is put in
    the directive set and stays in the tokens. *)
Lemma pass0_keeps_directive_tokens :
  pass0 (isa := Toy.assembler) [".text"] =
    inr [mkTSL 0 ∅ {[".text"]} [".text"]] ∧
  ¬ (∀ (isa : AssemblerBase) programLines tokenizedLines tsl t,
       pass0 programLines = inr tokenizedLines →
       tsl ∈ tokenizedLines →
       t ∈ directives tsl → t ∉ tokens tsl).
Proof.
  assert (pass0 (isa := Toy.assembler) [".text"] =
            inr [mkTSL 0 ∅ {[".text"]} [".text"]]) as Hp0 by by vm_compute.
  split; [done|]. intros Hclaim.
  apply (Hclaim Toy.assembler _ _ (mkTSL 0 ∅ {[".text"]} [".text"]) ".text" Hp0);
    simpl; set_solver.
Qed.

Lemma comment_only_line_witness :
  assemble (isa := Toy.assembler) ["# only a comment"] =
    inr {| program := [];
           errors := [mkError 0
             "Empty source lines should be impossible at this point"] |}.
Proof.
  apply (comment_only_line (isa := Toy.assembler) "# only a comment"
           "#" ["only"; "a"; "comment"]).
  - reflexivity.
  - reflexivity.
  - reflexivity.
  - repeat constructor.
Defined.

(** ** Pass 2 *)

Section pass2_facts.
Context {isa : AssemblerBase}.

Lemma u32_bounds (n : nat) : 0 ≤ u32 (Z.of_nat n) ≤ Z.of_nat n.
Proof.
  unfold u32. split.
  - apply Z.mod_pos_bound. lia.
  - apply Z.mod_le; lia.
Qed.

(** The loop over the symbols of one line: errors are only added, bindings
    are only added, a symbol that is already bound gives the error, and a
    run without error binds every symbol of the line to the offset. *)
Lemma pass2_symbols_spec (n : nat) (off : Z) (l : list string) :
  ∀ (sm : SymbolMap) (errs : Errors),
    ∃ sm' extra,
      foldl (pass2_symbol n off) (sm, errs) l = (sm', errs ++ extra) ∧
      (∀ s v, sm !! s = Some v → sm' !! s = Some v) ∧
      (∀ s v, sm !! s = Some v → s ∈ l →
         mkError n ("Multiple definitions of symbol '" +:+ s +:+ "'")
           ∈ extra) ∧
      (extra = [] → ∀ s, s ∈ l → sm' !! s = Some off).
Proof.
  induction l as [|s l IH]; intros sm errs; simpl.
  - exists sm, []. rewrite app_nil_r. split_and!; try done.
    + intros s v _ Hin. by apply elem_of_nil in Hin.
    + intros _ s Hin. by apply elem_of_nil in Hin.
  - unfold pass2_symbol at 2. simpl. case_bool_decide as Hbound.
    + destruct (IH sm (errs ++ [mkError n
        ("Multiple definitions of symbol '" +:+ s +:+ "'")]))
        as (sm' & extra & -> & Hmono & Hdup & _).
      exists sm', (mkError n
        ("Multiple definitions of symbol '" +:+ s +:+ "'") :: extra).
      rewrite <- app_assoc. split_and!; try done.
      intros s' v Hs' [->|Hin]%elem_of_cons; [by left|].
      right. by eapply Hdup.
    + destruct (IH (<[s := off]> sm) errs)
        as (sm' & extra & -> & Hmono & Hdup & Hall).
      assert (sm !! s = None) as Hnone.
      { destruct (sm !! s) eqn:E; [|done]. destruct Hbound. eauto. }
      exists sm', extra. split_and!; try done.
      * intros s' v Hs'. apply Hmono.
        rewrite lookup_insert_ne; [done|congruence].
      * intros s' v Hs' [->|Hin]%elem_of_cons; [congruence|].
        apply (Hdup s' v); [|done].
        rewrite lookup_insert_ne; [done|congruence].
      * intros Hnil s' [->|Hin]%elem_of_cons; [|by apply Hall].
        apply Hmono. by rewrite lookup_insert_eq.
Qed.

(** One iteration of pass 2, seen from outside. *)
Lemma pass2_step_spec (st : Pass2State) (line : TokenizedSrcLine) :
  ∃ bytes extra,
    p2_program (pass2_step st line) = p2_program st ++ bytes ∧
    p2_errors (pass2_step st line) = p2_errors st ++ extra ∧
    (∀ s v, p2_symbolMap st !! s = Some v →
            p2_symbolMap (pass2_step st line) !! s = Some v) ∧
    (∀ s v, p2_symbolMap st !! s = Some v → s ∈ symbols line →
       mkError (sourceLine line)
         ("Multiple definitions of symbol '" +:+ s +:+ "'") ∈ extra) ∧
    (extra = [] → ∀ s, s ∈ symbols line →
       p2_symbolMap (pass2_step st line) !! s =
         Some (instr_offset_of (p2_program st))) ∧
    (p2_needsLinkage (pass2_step st line) = p2_needsLinkage st ∨
     ∃ req, p2_needsLinkage (pass2_step st line) =
              p2_needsLinkage st ++ [req] ∧
            offset req = instr_offset_of (p2_program st) ∧
            length bytes = 4%nat).
Proof.
  unfold pass2_step, pass2_symbols.
  destruct (pass2_symbols_spec (sourceLine line)
              (instr_offset_of (p2_program st)) (set_iter (symbols line))
              (p2_symbolMap st) (p2_errors st))
    as (sm' & extra & -> & Hmono & Hdup & Hall).
  assert (∀ s v, p2_symbolMap st !! s = Some v → s ∈ symbols line →
            mkError (sourceLine line)
              ("Multiple definitions of symbol '" +:+ s +:+ "'") ∈ extra)
    as Hdup'.
  { intros s v Hs Hin. apply (Hdup s v Hs). by apply elem_of_set_iter. }
  assert (extra = [] → ∀ s, s ∈ symbols line →
            sm' !! s = Some (instr_offset_of (p2_program st))) as Hall'.
  { intros Hnil s Hin. apply Hall; [done|]. by apply elem_of_set_iter. }
  destruct (assembleDirective line) as [e|[directiveBytes|]]; simpl.
  - exists [], (extra ++ [e]). rewrite app_nil_r, app_assoc.
    split_and!; try done; [| |by left].
    + intros s v Hs Hin. apply elem_of_app. left. eauto.
    + intros Hnil. by apply app_eq_nil in Hnil as [_ ?].
  - exists directiveBytes, extra. split_and!; try done. by left.
  - destruct (assembleInstruction line) as [e|machineCode]; simpl.
    + exists [], (extra ++ [e]). rewrite app_nil_r, app_assoc.
      split_and!; try done; [| |by left].
      * intros s v Hs Hin. apply elem_of_app. left. eauto.
      * intros Hnil. by apply app_eq_nil in Hnil as [_ ?].
    + exists (word_bytes (instruction machineCode)), extra.
      split_and!; try done.
      destruct (negb _); [|by left]. right. eexists. by split_and!.
Qed.

Lemma pass2_loop_app (l1 l2 : Program) (st : Pass2State) :
  pass2_loop (l1 ++ l2) st = pass2_loop l2 (pass2_loop l1 st).
Proof. apply foldl_app. Qed.

Lemma pass2_loop_spec (lines : Program) :
  ∀ st, ∃ bytes extra,
    p2_program (pass2_loop lines st) = p2_program st ++ bytes ∧
    p2_errors (pass2_loop lines st) = p2_errors st ++ extra ∧
    (∀ s v, p2_symbolMap st !! s = Some v →
            p2_symbolMap (pass2_loop lines st) !! s = Some v).
Proof.
  unfold pass2_loop.
  induction lines as [|line lines IH]; intros st; simpl.
  - exists [], []. by rewrite !app_nil_r.
  - destruct (pass2_step_spec st line)
      as (b1 & e1 & Hb1 & He1 & Hm1 & _).
    destruct (IH (pass2_step st line)) as (b2 & e2 & -> & -> & Hm2).
    exists (b1 ++ b2), (e1 ++ e2). rewrite Hb1, He1, !app_assoc.
    split_and!; auto.
Qed.

(** Every link request made by pass 2 points at a whole word of the code
    emitted so far. *)
Lemma pass2_loop_link_bounds (lines : Program) :
  ∀ st,
    (∀ req, req ∈ p2_needsLinkage st →
            word_in_bounds (p2_program st) (offset req)) →
    ∀ req, req ∈ p2_needsLinkage (pass2_loop lines st) →
           word_in_bounds (p2_program (pass2_loop lines st)) (offset req).
Proof.
  unfold pass2_loop.
  induction lines as [|line lines IH]; intros st Hinv; simpl; [done|].
  apply IH. intros req Hreq.
  destruct (pass2_step_spec st line)
    as (bytes & extra & Hprog & _ & _ & _ & _ & Hlinks).
  rewrite Hprog. unfold word_in_bounds. rewrite length_app.
  destruct Hlinks as [Hsame|(req' & Hnew & Hoff & Hlen)].
  - rewrite Hsame in Hreq. destruct (Hinv req Hreq). lia.
  - rewrite Hnew in Hreq.
    apply elem_of_app in Hreq as [Hreq|Heq%list_elem_of_singleton].
    + destruct (Hinv req Hreq). lia.
    + subst req. rewrite Hoff, Hlen. unfold instr_offset_of.
      pose proof (u32_bounds (length (p2_program st))). lia.
Qed.

Lemma write_word_length (p : QByteArray) (off w : Z) :
  length (write_word p off w) = length p.
Proof. unfold write_word. by rewrite !length_insert. Qed.

(** One link request that pass 3 gets through: an error for an unbound
    symbol, or the word patched; with the [assert]s compiled in, the
    word was not before the last one of the program and the field was an
    immediate. *)
Lemma pass3_step_inr (symbolMap : SymbolMap) (st st' : Pass3State)
    (req : LinkRequest) :
  pass3_step symbolMap st req = inr st' →
  match symbolMap !! symbol (fieldRequest req) with
  | None =>
      st' = mkPass3 (p3_program st)
              (p3_errors st ++
                 [mkError (req_sourceLine req)
                    ("Unknown symbol '" +:+ symbol (fieldRequest req) +:+
                     "'")])
  | Some v =>
      st' = mkPass3
              (write_word (p3_program st) (offset req)
                 match field (fieldRequest req) with
                 | Some immField =>
                     applySymbolResolution immField v
                       (read_word (p3_program st) (offset req)) (offset req)
                 | None => read_word (p3_program st) (offset req)
                 end)
              (p3_errors st) ∧
      (NDEBUG = false →
       u32 (Z.of_nat (length (p3_program st))) ≤ u32 (offset req + 4) ∧
       is_Some (field (fieldRequest req)))
  end.
Proof.
  unfold pass3_step, cassert.
  destruct (symbolMap !! _) as [v|]; [|by intros [= <-]].
  destruct NDEBUG; cbn [orb bindE].
  - destruct (field _); cbn [bindE]; intros [= <-]; by split.
  - case_bool_decide as Hpos; cbn [bindE]; [|done].
    destruct (field _); cbn [bindE]; [|done].
    intros [= <-]. split; [done|]. intros _. by split.
Qed.

(** One link request at which pass 3 aborts. *)
Lemma pass3_step_inl (symbolMap : SymbolMap) (st : Pass3State)
    (req : LinkRequest) (abort : Abort) :
  pass3_step symbolMap st req = inl abort →
  NDEBUG = false ∧
  is_Some (symbolMap !! symbol (fieldRequest req)) ∧
  (abort = assertion_failed
             "Error: position of link request is not within program" ∧
   u32 (offset req + 4) < u32 (Z.of_nat (length (p3_program st))) ∨
   abort = assertion_failed
             "Something other than an immediate field has requested linkage?" ∧
   u32 (Z.of_nat (length (p3_program st))) ≤ u32 (offset req + 4) ∧
   field (fieldRequest req) = None).
Proof.
  unfold pass3_step, cassert.
  destruct (symbolMap !! _) as [v|]; [|done].
  destruct NDEBUG; cbn [orb bindE].
  - by destruct (field _).
  - case_bool_decide as Hpos; cbn [bindE].
    + destruct (field _) eqn:Hf; cbn [bindE]; [done|].
      intros [= <-]. split_and!; [done|by eexists|]. right. by split_and!.
    + intros [= <-]. split_and!; [done|by eexists|]. left. split; [done|lia].
Qed.

Lemma pass3_step_length (symbolMap : SymbolMap) (st st' : Pass3State)
    (req : LinkRequest) :
  pass3_step symbolMap st req = inr st' →
  length (p3_program st') = length (p3_program st).
Proof.
  intros Hstep%pass3_step_inr.
  destruct (symbolMap !! _); [destruct Hstep as [-> _]|subst st']; simpl;
    [apply write_word_length|done].
Qed.

Lemma pass3_loop_length (symbolMap : SymbolMap) (links : LinkRequests) :
  ∀ st st', pass3_loop symbolMap links st = inr st' →
            length (p3_program st') = length (p3_program st).
Proof.
  induction links as [|req links IH]; intros st st'; cbn [pass3_loop].
  - by intros [= <-].
  - destruct (pass3_step symbolMap st req) as [?|st1] eqn:Hstep; [done|].
    cbn [bindE]. intros Hloop%IH.
    by rewrite Hloop, (pass3_step_length _ _ _ _ Hstep).
Qed.

(** C3.  Pass 2 run with no link request to start with: when it ends,
    every request it has recorded lies with its four bytes inside the code
    it has emitted; and pass 3, run on that code with any symbol map, finds
    the same bound in force at each request it comes to, whatever it has
    patched before. *)
Theorem link_requests_in_bounds (expandedLines : Program)
    (symbolMap0 : SymbolMap) :
  let st := pass2_loop expandedLines (mkPass2 [] [] symbolMap0 []) in
  (∀ req, req ∈ p2_needsLinkage st →
          word_in_bounds (p2_program st) (offset req)) ∧
  (∀ symbolMap done req rest st3,
     p2_needsLinkage st = done ++ req :: rest →
     pass3_loop symbolMap done (mkPass3 (p2_program st) []) = inr st3 →
     word_in_bounds (p3_program st3) (offset req)).
Proof.
  intros st.
  assert (∀ req, req ∈ p2_needsLinkage st →
                 word_in_bounds (p2_program st) (offset req)) as Hinv.
  { apply pass2_loop_link_bounds. simpl. intros req Hin.
    by apply elem_of_nil in Hin. }
  split; [done|].
  intros symbolMap done req rest st3 Hsplit Hloop.
  unfold word_in_bounds. rewrite (pass3_loop_length _ _ _ _ Hloop). simpl.
  apply Hinv. rewrite Hsplit. apply elem_of_app. right. by left.
Qed.

End pass2_facts.

Section pass0_steps.
Context {isa : AssemblerBase}.

Lemma pass0_step_empty (st : Pass0State) (i : nat) :
  pass0_step st i "" = st.
Proof. done. Qed.

Lemma pass0_step_tokens (st : Pass0State) (i : nat) (line : string)
    (tsl : TokenizedSrcLine) :
  QString.isEmpty line = false →
  pass0_line i line = inr tsl →
  tokens tsl ≠ [] →
  pass0_step st i line =
    mkPass0 (p0_errors st)
      (p0_tokenizedLines st ++
         [mkTSL (sourceLine tsl) (symbols tsl ∪ p0_carry st)
            (directives tsl) (tokens tsl)])
      ∅.
Proof.
  intros Hne Hline Htok. unfold pass0_step. rewrite Hne, Hline.
  rewrite (bool_decide_false (tokens tsl = [])) by done.
  rewrite andb_false_r. by rewrite bool_decide_true.
Qed.

Lemma pass0_step_label (st : Pass0State) (i : nat) (line : string)
    (tsl : TokenizedSrcLine) :
  QString.isEmpty line = false →
  pass0_line i line = inr tsl →
  symbols tsl ≠ ∅ →
  tokens tsl = [] →
  pass0_step st i line =
    mkPass0 (p0_errors st) (p0_tokenizedLines st)
      (p0_carry st ∪ symbols tsl).
Proof.
  intros Hne Hline Hsym Htok. unfold pass0_step. rewrite Hne, Hline.
  rewrite (bool_decide_true (symbols tsl ≠ ∅)) by done.
  by rewrite (bool_decide_true (tokens tsl = [])) by done.
Qed.




End pass0_steps.


(** ** Labels carried to the next line *)

Section carry.
Context {isa : AssemblerBase}.

(** A run of empty and label-only lines changes the carry only, and the
    carry then holds the symbols of each of them. *)
Lemma pass0_loop_labels (labels : list string) :
  Forall (λ line, line = "" ∨ ∃ syms, label_only line syms) labels →
  ∀ i st, ∃ carry',
    pass0_loop i labels st =
      mkPass0 (p0_errors st) (p0_tokenizedLines st) carry' ∧
    p0_carry st ⊆ carry' ∧
    ∀ line syms, line ∈ labels → label_only line syms → syms ⊆ carry'.
Proof.
  induction 1 as [|line labels Hline _ IH]; intros i st; simpl.
  - exists (p0_carry st). destruct st. split_and!; [done|done|].
    intros line syms Hin. by apply elem_of_nil in Hin.
  - destruct Hline as [->|(syms & Hne & i0 & tsl & Hl & Hs & Hn & Ht)].
    + rewrite pass0_step_empty.
      destruct (IH (S i) st) as (carry' & -> & Hsub & Hall).
      exists carry'. split_and!; [done|done|].
      intros line syms [->|Hin]%elem_of_cons; [|by apply Hall].
      by intros [? _].
    + apply (pass0_line_index _ i) in Hl.
      erewrite pass0_step_label; [|done|exact Hl|simpl; congruence|done].
      simpl.
      destruct (IH (S i) (mkPass0 (p0_errors st) (p0_tokenizedLines st)
                            (p0_carry st ∪ symbols tsl)))
        as (carry' & -> & Hsub & Hall).
      simpl in *. exists carry'. split_and!; [done|set_solver|].
      intros line' syms' [->|Hin]%elem_of_cons; [|by apply Hall].
      intros (_ & i1 & tsl1 & Hl1 & Hs1 & _).
      apply (pass0_line_index _ i) in Hl1. rewrite Hl in Hl1.
      injection Hl1 as Heq _. set_solver.
Qed.

(** Pass 0 around a line with tokens that follows such a run: the lines
    staged for what precedes it, then the line with the carried symbols,
    then the rest. *)
Lemma pass0_carry_inr (pre labels post : list string) (target : string)
    (tsl_t : TokenizedSrcLine) (tokenizedLines : Program) :
  Forall (λ line, line = "" ∨ ∃ syms, label_only line syms) labels →
  QString.isEmpty target = false →
  pass0_line (length pre + length labels) target = inr tsl_t →
  tokens tsl_t ≠ [] →
  pass0 (pre ++ labels ++ target :: post) = inr tokenizedLines →
  ∃ tl_pre staged tl_post,
    pass0 pre = inr tl_pre ∧
    tokenizedLines = tl_pre ++ staged :: tl_post ∧
    sourceLine staged = (length pre + length labels)%nat ∧
    (∀ line syms, line ∈ labels → label_only line syms →
                  syms ⊆ symbols staged).
Proof.
  intros Hlabels Hne Htarget Htok (carry & Hloop)%pass0_inr.
  rewrite !pass0_loop_app in Hloop. simpl in Hloop.
  destruct (pass0_loop_frame pre 0 ∅) as (e1 & t1 & c1 & Hpre).
  rewrite Hpre in Hloop. simpl in Hloop.
  destruct (pass0_loop_labels labels Hlabels (length pre) (mkPass0 e1 t1 c1))
    as (c2 & Hlab & _ & Hall).
  rewrite Hlab in Hloop. simpl in Hloop.
  erewrite pass0_step_tokens in Hloop; [|done|exact Htarget|done].
  simpl in Hloop.
  destruct (pass0_loop_frame post (S (length pre + length labels)) ∅)
    as (e3 & t3 & c3 & Hpost).
  rewrite Hpost in Hloop. injection Hloop as He <- _.
  apply app_eq_nil in He as [-> ->].
  eexists t1, _, t3. split_and!.
  - apply pass0_inr. exists c1. by rewrite Hpre.
  - by rewrite <- app_assoc.
  - simpl. apply pass0_line_inr in Htarget
      as (? & ? & ? & ? & ? & _ & _ & _ & ->). done.
  - simpl. intros line syms Hin Hl. specialize (Hall line syms Hin Hl).
    set_solver.
Qed.

Lemma pass2_inr (lines : Program) (sm0 : SymbolMap) (l0 : LinkRequests)
    (code : QByteArray) (sm : SymbolMap) (links : LinkRequests) :
  pass2 lines sm0 l0 = (inr code, sm, links) ↔
  pass2_loop lines (mkPass2 [] [] sm0 l0) = mkPass2 code [] sm links.
Proof.
  unfold pass2. destruct (pass2_loop lines _) as [p e m l]. simpl.
  case_bool_decide as He; split; intros Heq; by simplify_eq.
Qed.

(** A successful pass 2 binds the symbols of each of its lines to the
    size of the code emitted for the lines before it. *)
Lemma pass2_app_inr (before after : Program) (line : TokenizedSrcLine)
    (sm0 : SymbolMap) (code : QByteArray) (sm : SymbolMap)
    (links : LinkRequests) :
  pass2 (before ++ line :: after) sm0 [] = (inr code, sm, links) →
  ∃ code_b sm_b links_b rest,
    pass2 before sm0 [] = (inr code_b, sm_b, links_b) ∧
    code = code_b ++ rest ∧
    ∀ s, s ∈ symbols line →
         sm !! s = Some (u32 (Z.of_nat (length code_b))).
Proof.
  rewrite pass2_inr, pass2_loop_app.
  change (pass2_loop (line :: after) ?st)
    with (pass2_loop after (pass2_step st line)).
  destruct (pass2_loop before _) as [pb eb mb lb] eqn:Hb.
  destruct (pass2_loop_spec before (mkPass2 [] [] sm0 []))
    as (b0 & e0 & Hb0 & He0 & _).
  rewrite Hb in Hb0, He0. simpl in Hb0, He0. subst pb eb.
  destruct (pass2_step_spec (mkPass2 b0 e0 mb lb) line)
    as (b1 & e1 & Hb1 & He1 & _ & _ & Hall & _).
  destruct (pass2_loop_spec after (pass2_step (mkPass2 b0 e0 mb lb) line))
    as (b2 & e2 & Hb2 & He2 & Hm2).
  intros Hfinal. rewrite Hfinal in Hb2, He2, Hm2. simpl in *.
  rewrite Hb1 in Hb2. rewrite He1 in He2.
  symmetry in He2. apply app_eq_nil in He2 as [[-> ->]%app_eq_nil ->].
  exists b0, mb, lb, (b1 ++ b2). split_and!.
  - by apply pass2_inr.
  - by rewrite Hb2, <- app_assoc.
  - intros s Hs. apply Hm2. by apply Hall.
Qed.

(** C2.  [labels] is a run of empty and label-only lines and [target], the
    line after it, has tokens and does not expand to nothing.  When the
    program gets through passes 0 to 2, every symbol of the run is bound
    to the size of the code of the lines before it, which is where the
    bytes of [target] are put. *)
Theorem carried_symbols_bind (pre labels post : list string)
    (target : string) (tsl_t : TokenizedSrcLine)
    (tokenizedLines expandedLines : Program) (code : QByteArray)
    (symbolMap : SymbolMap) (needsLinkage : LinkRequests) :
  Forall (λ line, line = "" ∨ ∃ syms, label_only line syms) labels →
  QString.isEmpty target = false →
  pass0_line (length pre + length labels) target = inr tsl_t →
  tokens tsl_t ≠ [] →
  (∀ tsl, tsl ∈ tokenizedLines →
          sourceLine tsl = (length pre + length labels)%nat →
          expandPseudoOp tsl ≠ inr (Some [])) →
  pass0 (pre ++ labels ++ target :: post) = inr tokenizedLines →
  pass1 tokenizedLines = inr expandedLines →
  pass2 expandedLines ∅ [] = (inr code, symbolMap, needsLinkage) →
  ∃ tl_pre el_pre code_pre sm_pre links_pre rest,
    pass0 pre = inr tl_pre ∧
    pass1 tl_pre = inr el_pre ∧
    pass2 el_pre ∅ [] = (inr code_pre, sm_pre, links_pre) ∧
    code = code_pre ++ rest ∧
    ∀ line syms s,
      line ∈ labels → label_only line syms → s ∈ syms →
      symbolMap !! s = Some (u32 (Z.of_nat (length code_pre))).
Proof.
  intros Hlabels Hne Htarget Htok Hexp Hp0 Hp1 Hp2.
  destruct (pass0_carry_inr _ _ _ _ _ _ Hlabels Hne Htarget Htok Hp0)
    as (tl_pre & staged & tl_post & Hpre0 & -> & Hsl & Hsyms).
  apply pass1_app_inr in Hp1
    as (el_pre & mid & el_post & Hpre1 & Hstep & ->).
  assert (∃ first others, mid = first :: others ∧
                          symbols first = symbols staged)
    as (first & others & -> & Hfirst).
  { unfold pass1_step in Hstep.
    destruct (expandPseudoOp staged) as [e|[eops|]] eqn:Hx;
      simpl in Hstep; [done| |].
    - injection Hstep as <-. destruct eops as [|eop eops].
      + destruct (Hexp staged); [|done|done].
        apply elem_of_app. right. by left.
      + by eexists _, _.
    - injection Hstep as <-. by eexists _, _. }
  change ((first :: others) ++ el_post)
    with (first :: (others ++ el_post)) in Hp2.
  apply pass2_app_inr in Hp2
    as (code_pre & sm_pre & links_pre & rest & Hpre2 & -> & Hbind).
  exists tl_pre, el_pre, code_pre, sm_pre, links_pre, rest.
  split_and!; try done.
  intros line syms s Hin Hl Hs. apply Hbind. rewrite Hfirst.
  by apply (Hsyms line syms).
Qed.

End carry.

Lemma carried_symbols_bind_witness :
  ∃ tl_pre el_pre code_pre sm_pre links_pre rest,
    pass0 (isa := Toy.assembler) ["jal ra,end"; "nop"] = inr tl_pre ∧
    pass1 (isa := Toy.assembler) tl_pre = inr el_pre ∧
    pass2 (isa := Toy.assembler) el_pre ∅ [] =
      (inr code_pre, sm_pre, links_pre) ∧
    word_bytes 111 ++ word_bytes 19 ++ word_bytes 111 = code_pre ++ rest ∧
    ∀ line syms s,
      line ∈ ["end:"; ""; "foo: # here"] →
      label_only (isa := Toy.assembler) line syms → s ∈ syms →
      ({["end" := 8; "foo" := 8]} : SymbolMap) !! s =
        Some (u32 (Z.of_nat (length code_pre))).
Proof.
  eapply (carried_symbols_bind (isa := Toy.assembler)
            ["jal ra,end"; "nop"] ["end:"; ""; "foo: # here"] []
            "jal ra,end" (mkTSL 5 ∅ ∅ ["jal"; "ra"; "end"])).
  - constructor; [|constructor; [|constructor; [|constructor]]].
    + right. exists {["end"]}. split; [done|].
      exists 0%nat, (mkTSL 0 {["end"]} ∅ []). split_and!; try done; by vm_compute.
    + by left.
    + right. exists {["foo"]}. split; [done|].
      exists 0%nat, (mkTSL 0 {["foo"]} ∅ []). split_and!; try done; by vm_compute.
  - reflexivity.
  - by vm_compute.
  - done.
  - intros tsl Hin Hsl. unfold expandPseudoOp.
    instantiate (1 := [mkTSL 0 ∅ ∅ ["jal"; "ra"; "end"];
                       mkTSL 1 ∅ ∅ ["nop"];
                       mkTSL 5 {["end"; "foo"]} ∅ ["jal"; "ra"; "end"]])
      in Hin.
    repeat (apply elem_of_cons in Hin as [->|Hin]); try done.
    by apply elem_of_nil in Hin.
  - by vm_compute.
  - by vm_compute.
  - by vm_compute.
Defined.

(** C2 as the spec words it fails when the line after the labels is a
    pseudo-instruction that expands to no line: pass 1 then pushes
    nothing for it, and the symbols carried onto it are in no line of the
    expanded program.  Here [a] is bound nowhere, though the line after
    emits a word. *)
Lemma carried_symbols_dropped :
  pass0 (isa := ToyGone.assembler) ["a:"; "gone"; "addi x1,x0,0"] =
    inr [mkTSL 1 {["a"]} ∅ ["gone"];
         mkTSL 2 ∅ ∅ ["addi"; "x1"; "x0"; "0"]] ∧
  pass1 (isa := ToyGone.assembler)
      [mkTSL 1 {["a"]} ∅ ["gone"];
       mkTSL 2 ∅ ∅ ["addi"; "x1"; "x0"; "0"]] =
    inr [mkTSL 2 ∅ ∅ ["addi"; "x1"; "x0"; "0"]] ∧
  pass2 (isa := ToyGone.assembler)
      [mkTSL 2 ∅ ∅ ["addi"; "x1"; "x0"; "0"]] ∅ [] =
    (inr (word_bytes 19), ∅, []) ∧
  ¬ (∀ (isa : AssemblerBase) (pre labels post : list string)
       (target : string) (tsl_t : TokenizedSrcLine)
       (tokenizedLines expandedLines : Program) (code : QByteArray)
       (symbolMap : SymbolMap) (needsLinkage : LinkRequests),
       Forall (λ line, line = "" ∨ ∃ syms, label_only line syms) labels →
       QString.isEmpty target = false →
       pass0_line (length pre + length labels) target = inr tsl_t →
       tokens tsl_t ≠ [] →
       pass0 (pre ++ labels ++ target :: post) = inr tokenizedLines →
       pass1 tokenizedLines = inr expandedLines →
       pass2 expandedLines ∅ [] = (inr code, symbolMap, needsLinkage) →
       ∃ tl_pre el_pre code_pre sm_pre links_pre rest,
         pass0 pre = inr tl_pre ∧
         pass1 tl_pre = inr el_pre ∧
         pass2 el_pre ∅ [] = (inr code_pre, sm_pre, links_pre) ∧
         code = code_pre ++ rest ∧
         ∀ line syms s,
           line ∈ labels → label_only line syms → s ∈ syms →
           symbolMap !! s = Some (u32 (Z.of_nat (length code_pre)))).
Proof.
  assert (pass0 (isa := ToyGone.assembler) ["a:"; "gone"; "addi x1,x0,0"] =
            inr [mkTSL 1 {["a"]} ∅ ["gone"];
                 mkTSL 2 ∅ ∅ ["addi"; "x1"; "x0"; "0"]]) as Hp0
    by by vm_compute.
  assert (pass1 (isa := ToyGone.assembler)
            [mkTSL 1 {["a"]} ∅ ["gone"];
             mkTSL 2 ∅ ∅ ["addi"; "x1"; "x0"; "0"]] =
          inr [mkTSL 2 ∅ ∅ ["addi"; "x1"; "x0"; "0"]]) as Hp1
    by by vm_compute.
  assert (pass2 (isa := ToyGone.assembler)
            [mkTSL 2 ∅ ∅ ["addi"; "x1"; "x0"; "0"]] ∅ [] =
          (inr (word_bytes 19), ∅, [])) as Hp2 by by vm_compute.
  split_and!; [done|done|done|]. intros Hclaim.
  destruct (Hclaim ToyGone.assembler [] ["a:"] ["addi x1,x0,0"] "gone"
              (mkTSL 1 ∅ ∅ ["gone"])
              [mkTSL 1 {["a"]} ∅ ["gone"];
               mkTSL 2 ∅ ∅ ["addi"; "x1"; "x0"; "0"]]
              [mkTSL 2 ∅ ∅ ["addi"; "x1"; "x0"; "0"]]
              (word_bytes 19) ∅ [])
    as (tl_pre & el_pre & code_pre & sm_pre & links_pre & rest &
        _ & _ & _ & _ & Hbind);
    [| | | |exact Hp0|exact Hp1|exact Hp2|].
  - constructor; [|constructor]. right. exists {["a"]}. split; [done|].
    exists 0%nat, (mkTSL 0 {["a"]} ∅ []). split_and!; try done; by vm_compute.
  - reflexivity.
  - by vm_compute.
  - done.
  - specialize (Hbind "a:" {["a"]} "a").
    rewrite lookup_empty in Hbind. discriminate Hbind.
    + set_solver.
    + split; [done|].
      exists 0%nat, (mkTSL 0 {["a"]} ∅ []).
      split_and!; try done; by vm_compute.
    + set_solver.
Qed.

(** ** The disassembler *)

Lemma aligned_around_word (a b : nat) :
  (a `mod` 4 = 0)%nat → (b `mod` 4 = 0)%nat →
  ((a + S (S (S (S b)))) `mod` 4 = 0)%nat.
Proof.
  intros Ha Hb. apply Nat.Div0.div_exact in Ha, Hb. rewrite Ha, Hb.
  replace (4 * (a `div` 4) + S (S (S (S (4 * (b `div` 4))))))%nat
    with ((a `div` 4 + 1 + b `div` 4) * 4)%nat by lia.
  apply Nat.Div0.mod_mul.
Qed.

Section disassemble_facts.
Context {isa : AssemblerBase}.

Lemma disassemble_aligned (program : QByteArray) (baseAddress : Z) :
  (length program `mod` 4 = 0)%nat →
  disassemble program baseAddress =
    disassemble_loop baseAddress 0 program
      {| dis_program := []; dis_errors := [] |}.
Proof.
  intros Hlen. unfold disassemble. rewrite bool_decide_false; [done|].
  intros Hne. apply Hne.
  change 4 with (Z.of_nat 4). rewrite <- Nat2Z.inj_mod. by rewrite Hlen.
Qed.

(** The loop reaches a word whose instruction fails to disassemble: the
    [std::get<LineTokens>] in the inner handler throws, and nothing
    catches it. *)
Lemma disassemble_loop_field_error (n : nat) :
  ∀ (before after : QByteArray) (b0 b1 b2 b3 : byte) (baseAddress i : Z)
    (res : DisassembleResult) (instr : Instruction) (e : Error),
    length before = (4 * n)%nat →
    matchInstruction (bytes_word [b0; b1; b2; b3]) = inr instr →
    instr_disassemble instr (bytes_word [b0; b1; b2; b3])
      (u32 (baseAddress + (i + Z.of_nat (length before)))) ∅ = inl e →
    disassemble_loop baseAddress i (before ++ [b0; b1; b2; b3] ++ after) res
      = inl bad_variant_access.
Proof.
  induction n as [|n IH];
    intros before after b0 b1 b2 b3 baseAddress i res instr e Hlen Hm Hd.
  - destruct before; [|done]. cbn [length Z.of_nat] in Hd.
    rewrite Z.add_0_r in Hd.
    cbn [app disassemble_loop]. rewrite Hm. cbn [get_first get_second].
    by rewrite Hd.
  - destruct before as [|c0 [|c1 [|c2 [|c3 before]]]]; simpl in Hlen;
      try lia.
    assert (length before = (4 * n)%nat) as Hlen' by lia.
    assert (∀ res', disassemble_loop baseAddress (i + 4)
              (before ++ [b0; b1; b2; b3] ++ after) res'
              = inl bad_variant_access) as Hrest.
    { intros res'. eapply IH; [done|done|].
      replace (i + 4 + Z.of_nat (length before))
        with (i + Z.of_nat (length (c0 :: c1 :: c2 :: c3 :: before)));
        [done|]. simpl. lia. }
    cbn [app disassemble_loop].
    destruct (matchInstruction (bytes_word [c0; c1; c2; c3])) as [?|instr0];
      cbn [get_first get_second]; [apply Hrest|].
    destruct (instr_disassemble instr0 _ _ _); [done|apply Hrest].
Qed.

(** C5: the code at a word that matches an instruction and fails to
    disassemble.  No error is recorded for it: [disassemble] ends with the
    exception [std::bad_variant_access]. *)
Theorem disassemble_field_error_escapes (before after : QByteArray)
    (b0 b1 b2 b3 : byte) (baseAddress : Z) (instr : Instruction)
    (e : Error) :
  (length before `mod` 4 = 0)%nat →
  (length after `mod` 4 = 0)%nat →
  matchInstruction (bytes_word [b0; b1; b2; b3]) = inr instr →
  instr_disassemble instr (bytes_word [b0; b1; b2; b3])
    (u32 (baseAddress + Z.of_nat (length before))) ∅ = inl e →
  disassemble (before ++ [b0; b1; b2; b3] ++ after) baseAddress
    = inl bad_variant_access.
Proof.
  intros Hb Ha Hm Hd.
  rewrite disassemble_aligned.
  - apply Nat.Div0.div_exact in Hb.
    eapply (disassemble_loop_field_error _ before); [exact Hb|exact Hm|].
    by rewrite Z.add_0_l.
  - rewrite !length_app. cbn [length]. by apply aligned_around_word.
Qed.

End disassemble_facts.

Lemma disassemble_field_error_escapes_witness :
  disassemble (isa := Toy.assembler)
    (word_bytes 19 ++ word_bytes (19 + 31 * 128) ++ word_bytes 19) 0
    = inl bad_variant_access.
Proof.
  apply (disassemble_field_error_escapes (isa := Toy.assembler)
           (word_bytes 19) (word_bytes 19) "147" "015" "000" "000" 0
           Toy.addi (mkError 4 "Unknown register")).
  - reflexivity.
  - reflexivity.
  - reflexivity.
  - reflexivity.
Defined.

Section disassemble_symbols.

(** Two assemblers whose matchers agree up to what the matched
    instructions print when they are shown a symbol. *)
Lemma disassemble_loop_blind (isa1 isa2 : AssemblerBase) :
  (∀ w,
     match matchInstruction (AssemblerBase := isa1) w,
           matchInstruction (AssemblerBase := isa2) w with
     | inl e1, inl e2 => e1 = e2
     | inr i1, inr i2 =>
         ∀ w' address,
           instr_disassemble i1 w' address ∅ =
           instr_disassemble i2 w' address ∅
     | _, _ => False
     end) →
  ∀ (n : nat) (rest : QByteArray) (baseAddress i : Z)
    (res : DisassembleResult),
    (length rest ≤ n)%nat →
    disassemble_loop (isa := isa1) baseAddress i rest res =
    disassemble_loop (isa := isa2) baseAddress i rest res.
Proof.
  intros Hagree n.
  induction n as [|n IH]; intros rest baseAddress i res Hlen.
  - destruct rest; [done|simpl in Hlen; lia].
  - destruct rest as [|b0 [|b1 [|b2 [|b3 rest]]]]; try done.
    cbn [disassemble_loop].
    specialize (Hagree (bytes_word [b0; b1; b2; b3])).
    destruct (matchInstruction (AssemblerBase := isa1) _) as [e1|i1],
             (matchInstruction (AssemblerBase := isa2) _) as [e2|i2];
      try done; cbn [get_first get_second].
    + subst e2. apply IH. simpl in Hlen. lia.
    + rewrite Hagree.
      destruct (instr_disassemble i2 _ _ _); cbn [get_second]; [done|].
      apply IH. simpl in Hlen. lia.
Qed.

End disassemble_symbols.

Section disassemble_output.
Context {isa : AssemblerBase}.

(** The loop on the words from index [j] on: each word the matcher knows is
    shown to its instruction with the empty symbol map, and gives one
    line; each other word gives the matcher's error. *)
Lemma disassemble_loop_lines (baseAddress : Z) (program : QByteArray)
    (n : nat) :
  ∀ (j : nat) (res res' : DisassembleResult),
    length program = (4 * (j + n))%nat →
    disassemble_loop baseAddress (4 * Z.of_nat j) (drop (4 * j) program) res
      = inr res' →
    (∀ k instr,
       k ∈ seq j n →
       matchInstruction (read_word program (4 * Z.of_nat k)) = inr instr →
       ∃ lineTokens,
         instr_disassemble instr (read_word program (4 * Z.of_nat k))
           (u32 (baseAddress + 4 * Z.of_nat k)) ∅ = inr lineTokens) ∧
    dis_program res' =
      dis_program res ++
      omap (λ k,
              match matchInstruction (read_word program (4 * Z.of_nat k)) with
              | inr instr =>
                  match instr_disassemble instr
                          (read_word program (4 * Z.of_nat k))
                          (u32 (baseAddress + 4 * Z.of_nat k)) ∅ with
                  | inr lineTokens => Some (QString.join " " lineTokens)
                  | inl _ => None
                  end
              | inl _ => None
              end) (seq j n) ∧
    dis_errors res' =
      dis_errors res ++
      omap (λ k,
              match matchInstruction (read_word program (4 * Z.of_nat k)) with
              | inl e => Some e
              | inr _ => None
              end) (seq j n).
Proof.
  induction n as [|n IH]; intros j res res' Hlen Hloop.
  - rewrite drop_ge in Hloop by lia. cbn [disassemble_loop] in Hloop.
    injection Hloop as <-. cbn [seq omap list_omap]. rewrite !app_nil_r.
    split_and!; [|done|done]. intros k instr Hk. by apply elem_of_nil in Hk.
  - assert (length (drop (4 * j) program) = (4 + 4 * n)%nat) as Hrest
      by (rewrite length_drop; lia).
    destruct (drop (4 * j) program) as [|b0 [|b1 [|b2 [|b3 rest]]]] eqn:Hdrop;
      simpl in Hrest; try lia.
    assert (rest = drop (4 * S j) program) as Hdrop'.
    { replace (4 * S j)%nat with (4 * j + 4)%nat by lia.
      by rewrite <- drop_drop, Hdrop. }
    assert (read_word program (4 * Z.of_nat j) = bytes_word [b0; b1; b2; b3])
      as Hword.
    { unfold read_word.
      replace (Z.to_nat (4 * Z.of_nat j)) with (4 * j)%nat by lia.
      by rewrite Hdrop. }
    cbn [disassemble_loop] in Hloop. rewrite <- Hword in Hloop.
    replace (4 * Z.of_nat j + 4) with (4 * Z.of_nat (S j)) in Hloop by lia.
    rewrite Hdrop' in Hloop.
    cbn [seq omap list_omap].
    destruct (matchInstruction (read_word program (4 * Z.of_nat j)))
      as [e|instr] eqn:Hm; cbn [get_first get_second] in Hloop.
    + apply IH in Hloop as (Hall & Hlines & Herrs); [|lia].
      cbn [dis_program dis_errors] in Hlines, Herrs. split_and!.
      * intros k instr Hk Hmk. apply elem_of_cons in Hk as [->|Hk];
          [congruence|by apply Hall].
      * done.
      * by rewrite Herrs, <- app_assoc.
    + destruct (instr_disassemble instr _ _ ∅) as [e|lineTokens] eqn:Hd;
        cbn [get_second] in Hloop; [done|].
      apply IH in Hloop as (Hall & Hlines & Herrs); [|lia].
      cbn [dis_program dis_errors] in Hlines, Herrs. split_and!.
      * intros k instr' Hk Hmk. apply elem_of_cons in Hk as [->|Hk];
          [|by apply Hall].
        rewrite Hm in Hmk. injection Hmk as <-. by exists lineTokens.
      * by rewrite Hlines, <- app_assoc.
      * done.
Qed.

(** C10.  When [disassemble] returns, its lines are made from what each
    matched instruction's [disassemble] gives for the word, its address
    and the empty reverse symbol map, one line a matched word and in the
    order of the words; the errors are those of the matcher.  So the
    same result comes from the assembler whose instructions cannot look
    at a symbol map at all. *)
Theorem disassemble_symbol_blind (program : QByteArray) (baseAddress : Z)
    (res : DisassembleResult) :
  disassemble program baseAddress = inr res →
  let word k := read_word program (4 * Z.of_nat k) in
  let address k := u32 (baseAddress + 4 * Z.of_nat k) in
  let words := seq 0 (length program `div` 4) in
  (∀ k instr,
     k ∈ words → matchInstruction (word k) = inr instr →
     ∃ lineTokens,
       instr_disassemble instr (word k) (address k) ∅ = inr lineTokens) ∧
  dis_program res =
    omap (λ k,
            match matchInstruction (word k) with
            | inr instr =>
                match instr_disassemble instr (word k) (address k) ∅ with
                | inr lineTokens => Some (QString.join " " lineTokens)
                | inl _ => None
                end
            | inl _ => None
            end) words ∧
  dis_errors res =
    omap (λ k,
            match matchInstruction (word k) with
            | inl e => Some e
            | inr _ => None
            end) words ∧
  disassemble (isa := symbol_blind isa) program baseAddress = inr res.
Proof.
  intros Hdis word address words.
  assert (disassemble (isa := symbol_blind isa) program baseAddress =
          disassemble program baseAddress) as Hblind.
  { unfold disassemble. case_bool_decide; [done|].
    apply (disassemble_loop_blind (symbol_blind isa) isa) with (n := length program);
      [|done].
    intros w. cbn [matchInstruction symbol_blind].
    by destruct (matchInstruction w). }
  rewrite Hblind.
  unfold disassemble in Hdis. case_bool_decide as Hal; [done|].
  assert (length program = (4 * (0 + length program `div` 4))%nat) as Hlen.
  { rewrite Nat.add_0_l. apply Nat.Div0.div_exact.
    apply Nat2Z.inj. rewrite Nat2Z.inj_mod. exact Hal. }
  pose proof (disassemble_loop_lines baseAddress program
                (length program `div` 4) 0 _ res Hlen Hdis)
    as (Hall & Hlines & Herrs).
  split_and!; try done.
  unfold disassemble. rewrite bool_decide_false; [done|].
  intros H. by apply H.
Qed.

End disassemble_output.

Lemma disassemble_symbol_blind_witness :
  let isa := Toy.assembler in
  let program := word_bytes (111 + 8 * 4096) ++ word_bytes 19 in
  let res := {| dis_program := ["jal x0 8"; "addi x0"]; dis_errors := [] |} in
  disassemble program 0 = inr res ∧
  dis_program res =
    omap (λ k,
            match matchInstruction (read_word program (4 * Z.of_nat k)) with
            | inr instr =>
                match instr_disassemble instr
                        (read_word program (4 * Z.of_nat k))
                        (u32 (0 + 4 * Z.of_nat k)) ∅ with
                | inr lineTokens => Some (QString.join " " lineTokens)
                | inl _ => None
                end
            | inl _ => None
            end) (seq 0 2) ∧
  disassemble (isa := symbol_blind Toy.assembler) program 0 = inr res.
Proof.
  intros isa program res.
  assert (disassemble program 0 = inr res) as Hdis by by vm_compute.
  destruct (disassemble_symbol_blind (isa := Toy.assembler) program 0 res Hdis)
    as (_ & Hlines & _ & Hblind).
  split_and!; [exact Hdis|exact Hlines|exact Hblind].
Defined.

(** * Further properties of the line classifier *)

Section classifier_outcomes.

(** The loop on a prefix of definitions whose cleaned names are new. *)
Lemma splitSymbols_loop_defs (n : nat) (defs : LineTokens) :
  ∀ (others rem : LineTokens) (syms : Symbols),
    Forall (λ t, QString.contains ":" t = true) defs →
    NoDup (QString.remove ":" <$> defs) →
    (∀ s, s ∈ QString.remove ":" <$> defs → s ∉ syms) →
    splitSymbols_loop n (defs ++ others) rem syms true =
      splitSymbols_loop n others rem
        (list_to_set (QString.remove ":" <$> defs) ∪ syms) true.
Proof.
  induction defs as [|t defs IH]; intros others rem syms Hd Hnd Hfresh.
  - simpl. by rewrite (left_id_L ∅ (∪)).
  - apply Forall_cons in Hd as [Ht Hd].
    rewrite fmap_cons in Hnd, Hfresh. apply NoDup_cons in Hnd as [Hnt Hnd].
    cbn [app splitSymbols_loop]. rewrite Ht.
    rewrite decide_False by (apply Hfresh; by left).
    rewrite IH; [|done|done|].
    + f_equal. rewrite fmap_cons, list_to_set_cons. set_solver.
    + intros s Hs. apply not_elem_of_union. split; [set_solver|].
      apply Hfresh. by right.
Qed.

(** X1.  Definitions first, every cleaned name once, and no colon after
    them: the split succeeds, with the set of cleaned names and the other
    tokens in their order. *)
Theorem splitSymbolsFromLine_succeeds (defs others : LineTokens) (n : nat) :
  Forall (λ t, QString.contains ":" t = true) defs →
  Forall (λ t, QString.contains ":" t = false) others →
  NoDup (QString.remove ":" <$> defs) →
  splitSymbolsFromLine (defs ++ others) n =
    inr (list_to_set (QString.remove ":" <$> defs), others).
Proof.
  intros Hd Ho Hnd.
  assert (splitSymbols_loop n (defs ++ others) [] ∅ true =
          inr (list_to_set (QString.remove ":" <$> defs), others)) as Hloop.
  { rewrite splitSymbols_loop_defs; [|done|done|set_solver].
    rewrite splitSymbols_loop_plain by done.
    by rewrite (right_id_L ∅ (∪)). }
  destruct (defs ++ others) eqn:Heq; [|done].
  apply app_eq_nil in Heq as [-> ->]. done.
Qed.

Lemma splitSymbolsFromLine_succeeds_witness :
  splitSymbolsFromLine (["a:"; "b:"] ++ ["addi"; "x1"]) 7 =
    inr (list_to_set (QString.remove ":" <$> ["a:"; "b:"]), ["addi"; "x1"]).
Proof.
  apply (splitSymbolsFromLine_succeeds ["a:"; "b:"] ["addi"; "x1"] 7).
  - repeat constructor.
  - repeat constructor.
  - apply (bool_decide_unpack _). vm_compute. exact I.
Defined.

(** X2.  The same cleaned name a second time among the leading
    definitions is the error of the line, whatever follows. *)
Theorem splitSymbolsFromLine_duplicate (defs : LineTokens) (t : string)
    (rest : LineTokens) (n : nat) :
  Forall (λ t, QString.contains ":" t = true) defs →
  NoDup (QString.remove ":" <$> defs) →
  QString.contains ":" t = true →
  QString.remove ":" t ∈ QString.remove ":" <$> defs →
  splitSymbolsFromLine (defs ++ t :: rest) n =
    inl (mkError n ("Multiple definitions of symbol '" +:+
                    QString.remove ":" t +:+ "'")).
Proof.
  intros Hd Hnd Ht Hin.
  assert (splitSymbols_loop n (defs ++ t :: rest) [] ∅ true =
          inl (mkError n ("Multiple definitions of symbol '" +:+
                          QString.remove ":" t +:+ "'"))) as Hloop.
  { rewrite splitSymbols_loop_defs; [|done|done|set_solver].
    cbn [splitSymbols_loop]. rewrite Ht.
    rewrite decide_True; [done|]. set_solver. }
  destruct defs; exact Hloop.
Qed.

Lemma splitSymbolsFromLine_duplicate_witness :
  splitSymbolsFromLine (["a:"; "b:"] ++ ":a" :: ["nop"]) 2 =
    inl (mkError 2 ("Multiple definitions of symbol '" +:+
                    QString.remove ":" ":a" +:+ "'")).
Proof.
  apply (splitSymbolsFromLine_duplicate ["a:"; "b:"] ":a" ["nop"] 2).
  - repeat constructor.
  - apply (bool_decide_unpack _). vm_compute. exact I.
  - reflexivity.
  - apply (bool_decide_unpack _). vm_compute. exact I.
Defined.

(** X3.  A token with a colon that comes after a token without one is the
    error [Stray ':' in line], when the definitions before them are in
    order. *)
Theorem splitSymbolsFromLine_stray (defs mid : LineTokens) (t c : string)
    (post : LineTokens) (n : nat) :
  Forall (λ t, QString.contains ":" t = true) defs →
  NoDup (QString.remove ":" <$> defs) →
  QString.contains ":" t = false →
  Forall (λ t, QString.contains ":" t = false) mid →
  QString.contains ":" c = true →
  splitSymbolsFromLine (defs ++ t :: mid ++ c :: post) n =
    inl (mkError n "Stray ':' in line").
Proof.
  intros Hd Hnd Ht Hmid Hc.
  assert (∀ rem syms,
            splitSymbols_loop n (mid ++ c :: post) rem syms false =
              inl (mkError n "Stray ':' in line")) as Hstray.
  { clear Ht. induction Hmid as [|m mid Hm _ IH]; intros rem syms.
    - cbn [app splitSymbols_loop]. by rewrite Hc.
    - cbn [app splitSymbols_loop]. rewrite Hm. apply IH. }
  assert (splitSymbols_loop n (defs ++ t :: mid ++ c :: post) [] ∅ true =
          inl (mkError n "Stray ':' in line")) as Hloop.
  { rewrite splitSymbols_loop_defs; [|done|done|set_solver].
    cbn [splitSymbols_loop]. rewrite Ht. apply Hstray. }
  destruct defs; exact Hloop.
Qed.

Lemma splitSymbolsFromLine_stray_witness :
  splitSymbolsFromLine (["a:"] ++ "lw" :: ["x1"] ++ "b:" :: ["x2"]) 4 =
    inl (mkError 4 "Stray ':' in line").
Proof.
  apply (splitSymbolsFromLine_stray ["a:"] ["x1"] "lw" "b:" ["x2"] 4).
  - repeat constructor.
  - apply (bool_decide_unpack _). vm_compute. exact I.
  - reflexivity.
  - repeat constructor.
  - reflexivity.
Defined.

(** X4.  [splitDirectivesFromLine] in full.  The tokens split into the
    leading ones that begin with ['.'] and the others; with no ['.'] token
    among the others the result is the set of the leading ones (a repeated
    directive is no error) and the others, else it is the error
    [Stray '.' in line]. *)
Theorem splitDirectivesFromLine_outcome (tokens : LineTokens) (n : nat) :
  ∃ ds others,
    tokens = ds ++ others ∧
    Forall (λ t, QString.startsWith "." t = true) ds ∧
    (∀ t, head others = Some t → QString.startsWith "." t = false) ∧
    splitDirectivesFromLine tokens n =
      if forallb (λ t, negb (QString.startsWith "." t)) others
      then inr (list_to_set ds, others)
      else inl (mkError n "Stray '.' in line").
Proof.
  assert (∀ toks rem dirs,
            splitDirectives_loop n toks rem dirs false =
              if forallb (λ t, negb (QString.startsWith "." t)) toks
              then inr (dirs, rem ++ toks)
              else inl (mkError n "Stray '.' in line")) as Hothers.
  { induction toks as [|t toks IH]; intros rem dirs;
      cbn [splitDirectives_loop forallb]; [by rewrite app_nil_r|].
    destruct (QString.startsWith "." t); [done|].
    cbn [negb andb]. rewrite IH. by rewrite <- app_assoc. }
  assert (∀ toks dirs,
            ∃ ds others,
              toks = ds ++ others ∧
              Forall (λ t, QString.startsWith "." t = true) ds ∧
              (∀ t, head others = Some t →
                    QString.startsWith "." t = false) ∧
              splitDirectives_loop n toks [] dirs true =
                if forallb (λ t, negb (QString.startsWith "." t)) others
                then inr (list_to_set ds ∪ dirs, others)
                else inl (mkError n "Stray '.' in line")) as Hloop.
  { induction toks as [|t toks IH]; intros dirs.
    - exists [], []. split_and!; try done. simpl.
      by rewrite (left_id_L ∅ (∪)).
    - destruct (QString.startsWith "." t) eqn:Ht.
      + destruct (IH ({[t]} ∪ dirs)) as (ds & others & -> & Hd & Hh & Hr).
        exists (t :: ds), others. split_and!; try done; [by constructor|].
        cbn [app splitDirectives_loop]. rewrite Ht, Hr.
        destruct (forallb _ others); [|done].
        do 2 f_equal. rewrite list_to_set_cons. set_solver.
      + exists [], (t :: toks). split_and!; try done.
        { intros t' [= <-]. done. }
        cbn [app splitDirectives_loop]. rewrite Ht, Hothers.
        cbn [forallb]. rewrite Ht. cbn [negb andb].
        destruct (forallb _ toks); [|done].
        simpl. by rewrite (left_id_L ∅ (∪)). }
  destruct tokens as [|t ts].
  - exists [], []. by split_and!.
  - destruct (Hloop (t :: ts) ∅) as (ds & others & Heq & Hd & Hh & Hr).
    exists ds, others. split_and!; try done.
    cbn [splitDirectivesFromLine]. rewrite Hr.
    by rewrite (right_id_L ∅ (∪)).
Qed.

End classifier_outcomes.

Section comment_outcomes.
Context {isa : AssemblerBase}.

(** X5.  [splitCommentFromLine] never fails.  It returns the tokens before
    the first one that holds the comment delimiter, and does nothing to
    what it has returned. *)
Theorem splitCommentFromLine_outcome (tokens : LineTokens) (n : nat) :
  ∃ kept cut,
    tokens = kept ++ cut ∧
    splitCommentFromLine tokens n = inr kept ∧
    Forall (λ t, QString.contains commentDelimiter t = false) kept ∧
    (∀ t, head cut = Some t →
          QString.contains commentDelimiter t = true) ∧
    splitCommentFromLine kept n = inr kept.
Proof.
  destruct (splitComment_loop_spec tokens [])
    as (kept & cut & Heq & Hloop & Hkept & Hcut).
  exists kept, cut. rewrite !splitCommentFromLine_inr, Hloop.
  split_and!; try done.
  - destruct Hcut as [->|(t & cut' & -> & Ht)]; [done|].
    by intros t' [= <-].
  - by rewrite splitComment_loop_plain.
Qed.

End comment_outcomes.

(** * Further properties of pass 0 *)

Section pass0_invariants.
Context {isa : AssemblerBase}.

(** What one iteration does to the staged lines: nothing, or one line of
    this index which has tokens or has no symbol. *)
Lemma pass0_step_lines (st : Pass0State) (i : nat) (line : string) :
  p0_tokenizedLines (pass0_step st i line) = p0_tokenizedLines st ∨
  ∃ tsl, p0_tokenizedLines (pass0_step st i line) =
           p0_tokenizedLines st ++ [tsl] ∧
         sourceLine tsl = i ∧
         (tokens tsl = [] → symbols tsl = ∅).
Proof.
  destruct (QString.isEmpty line) eqn:Hne.
  { left. unfold pass0_step. by rewrite Hne. }
  destruct (pass0_line i line) as [e|tsl] eqn:Hline.
  { left. unfold pass0_step. by rewrite Hne, Hline. }
  assert (sourceLine tsl = i) as Hsl.
  { apply pass0_line_inr in Hline
      as (? & ? & ? & ? & ? & _ & _ & _ & ->). done. }
  destruct (decide (tokens tsl = [])) as [Htok|Htok].
  - destruct (decide (symbols tsl = ∅)) as [Hsym|Hsym].
    + right. exists tsl. split_and!; [|done|done].
      unfold pass0_step. rewrite Hne, Hline.
      rewrite (bool_decide_false (symbols tsl ≠ ∅)) by naive_solver.
      rewrite andb_false_l.
      by rewrite (bool_decide_false (tokens tsl ≠ [])) by naive_solver.
    + left. by erewrite pass0_step_label.
  - right. eexists. split_and!.
    + by erewrite pass0_step_tokens.
    + done.
    + done.
Qed.

Lemma pass0_loop_lines (lines : list string) :
  ∀ i st,
    StronglySorted lt (sourceLine <$> p0_tokenizedLines st) →
    Forall (λ tsl, (sourceLine tsl < i)%nat ∧
                   (tokens tsl = [] → symbols tsl = ∅))
      (p0_tokenizedLines st) →
    StronglySorted lt
      (sourceLine <$> p0_tokenizedLines (pass0_loop i lines st)) ∧
    Forall (λ tsl, (sourceLine tsl < i + length lines)%nat ∧
                   (tokens tsl = [] → symbols tsl = ∅))
      (p0_tokenizedLines (pass0_loop i lines st)).
Proof.
  induction lines as [|line lines IH]; intros i st Hsorted Hall.
  - simpl. split; [done|]. eapply Forall_impl; [exact Hall|].
    intros tsl [? ?]. split; [lia|done].
  - cbn [pass0_loop length].
    replace (i + S (length lines))%nat with (S i + length lines)%nat by lia.
    apply IH.
    + destruct (pass0_step_lines st i line) as [->|(tsl & -> & Hsl & _)];
        [done|].
      rewrite fmap_app. apply StronglySorted_app_2; [|done|].
      * intros x1 x2 (t1 & -> & Ht1)%list_elem_of_fmap
          Hx2%list_elem_of_singleton. subst x2. rewrite Hsl.
        by apply (proj1 (Forall_forall _ _) Hall t1).
      * repeat constructor.
    + destruct (pass0_step_lines st i line) as [->|(tsl & -> & Hsl & Hsym)].
      * eapply Forall_impl; [exact Hall|]. intros tsl [? ?].
        split; [lia|done].
      * apply Forall_app. split.
        -- eapply Forall_impl; [exact Hall|]. intros t [? ?].
           split; [lia|done].
        -- apply Forall_singleton. split; [lia|done].
Qed.

(** X6.  The staged program follows the source: the line indices of its
    lines go up strictly and stay below the number of source lines. *)
Theorem pass0_source_order (programLines : list string)
    (tokenizedLines : Program) :
  pass0 programLines = inr tokenizedLines →
  StronglySorted lt (sourceLine <$> tokenizedLines) ∧
  Forall (λ tsl, (sourceLine tsl < length programLines)%nat) tokenizedLines.
Proof.
  intros (carry & Hloop)%pass0_inr.
  destruct (pass0_loop_lines programLines 0 (mkPass0 [] [] ∅))
    as [Hsorted Hall]; [constructor|constructor|].
  rewrite Hloop in Hsorted, Hall. simpl in *. split; [done|].
  eapply Forall_impl; [exact Hall|]. by intros tsl [? _].
Qed.

(** X7.  No staged line has symbols and no token: a line is staged with
    tokens, or with neither tokens nor symbols. *)
Theorem pass0_no_dangling_symbols (programLines : list string)
    (tokenizedLines : Program) (tsl : TokenizedSrcLine) :
  pass0 programLines = inr tokenizedLines →
  tsl ∈ tokenizedLines →
  tokens tsl = [] → symbols tsl = ∅.
Proof.
  intros (carry & Hloop)%pass0_inr Hin.
  destruct (pass0_loop_lines programLines 0 (mkPass0 [] [] ∅))
    as [_ Hall]; [constructor|constructor|].
  rewrite Hloop in Hall. simpl in Hall.
  by apply (proj1 (Forall_forall _ _) Hall tsl).
Qed.

(** The errors the loop adds are those of its lines. *)
Lemma pass0_loop_errors (lines : list string) :
  ∀ i st e,
    e ∈ p0_errors (pass0_loop i lines st) ↔
    e ∈ p0_errors st ∨
    ∃ k line, lines !! k = Some line ∧ QString.isEmpty line = false ∧
              pass0_line (i + k) line = inl e.
Proof.
  induction lines as [|line lines IH]; intros i st e; cbn [pass0_loop].
  - split; [by left|]. intros [?|(k & line & Hk & _)]; [done|].
    by rewrite lookup_nil in Hk.
  - rewrite IH. split.
    + intros [Hin|(k & line' & Hk & Hne & Hl)].
      * unfold pass0_step in Hin.
        destruct (QString.isEmpty line) eqn:Hne; [by left|].
        destruct (pass0_line i line) as [err|tsl] eqn:Hline.
        -- simpl in Hin. apply elem_of_app in Hin
             as [Hin|Hin%list_elem_of_singleton]; [by left|].
           subst err. right. exists 0%nat, line.
           by rewrite Nat.add_0_r.
        -- left. by repeat case_match.
      * right. exists (S k), line'. split_and!; [done|done|].
        by replace (i + S k)%nat with (S i + k)%nat by lia.
    + intros [Hin|(k & line' & Hk & Hne & Hl)].
      * left. unfold pass0_step. repeat case_match; try done.
        simpl. apply elem_of_app. by left.
      * destruct k as [|k]; simpl in Hk.
        -- injection Hk as ->. rewrite Nat.add_0_r in Hl. left.
           unfold pass0_step. rewrite Hne, Hl. simpl.
           apply elem_of_app. right. by left.
        -- right. exists k, line'. split_and!; [done|done|].
           by replace (S i + k)%nat with (i + S k)%nat by lia.
Qed.

(** X8.  Pass 0 goes through every line before it decides.  When it
    fails, its errors are the errors of the non-empty lines that do not
    get through their four operations; when it succeeds, there is no
    such line. *)
Theorem pass0_collects_errors (programLines : list string) :
  match pass0 programLines with
  | inl errs =>
      ∀ e, e ∈ errs ↔
           ∃ k line, programLines !! k = Some line ∧
                     QString.isEmpty line = false ∧
                     pass0_line k line = inl e
  | inr _ =>
      ∀ k line, programLines !! k = Some line →
                QString.isEmpty line = false →
                ∃ tsl, pass0_line k line = inr tsl
  end.
Proof.
  pose proof (pass0_loop_errors programLines 0 (mkPass0 [] [] ∅)) as Herrs.
  unfold pass0. case_bool_decide as Hnil.
  - intros e. rewrite Herrs. simpl. split.
    + intros [Hin|?]; [by apply elem_of_nil in Hin|done].
    + by right.
  - intros k line Hk Hne.
    destruct (pass0_line k line) as [e|tsl] eqn:Hline; [|by eauto].
    assert (e ∈ p0_errors (pass0_loop 0 programLines (mkPass0 [] [] ∅)))
      as Hin by (apply Herrs; right; by exists k, line).
    rewrite Hnil in Hin. by apply elem_of_nil in Hin.
Qed.

(** X9.  A program of empty and label-only lines assembles to the empty
    image without an error: the symbols it defines are carried to the end
    and dropped. *)
Theorem assemble_labels_only (programLines : list string) :
  Forall (λ line, line = "" ∨ ∃ syms, label_only line syms) programLines →
  assemble programLines = inr {| program := []; errors := [] |}.
Proof.
  intros Hlabels.
  destruct (pass0_loop_labels programLines Hlabels 0 (mkPass0 [] [] ∅))
    as (carry & Hloop & _).
  assert (pass0 programLines = inr []) as Hp0.
  { apply pass0_inr. by exists carry. }
  unfold assemble. rewrite Hp0. by vm_compute.
Qed.

End pass0_invariants.

Lemma pass0_source_order_witness :
  let tl := [mkTSL 1 {["a"]} ∅ ["nop"]; mkTSL 3 ∅ ∅ ["addi"; "x1"; "x0"; "1"]] in
  StronglySorted lt (sourceLine <$> tl) ∧
  Forall (λ tsl, (sourceLine tsl < 4)%nat) tl.
Proof.
  intros tl.
  apply (pass0_source_order (isa := Toy.assembler)
           ["a:"; "nop"; ""; "addi x1,x0,1"] tl).
  by vm_compute.
Defined.

Lemma pass0_no_dangling_symbols_witness :
  symbols (mkTSL 2 ∅ ∅ []) = ∅.
Proof.
  apply (pass0_no_dangling_symbols (isa := Toy.assembler)
           ["a:"; "nop"; "# note"] [mkTSL 1 {["a"]} ∅ ["nop"]; mkTSL 2 ∅ ∅ []]
           (mkTSL 2 ∅ ∅ [])).
  - by vm_compute.
  - set_solver.
  - reflexivity.
Defined.

Lemma assemble_labels_only_witness :
  assemble (isa := Toy.assembler) ["loop:"; ""; "done: # the end"] =
    inr {| program := []; errors := [] |}.
Proof.
  apply (assemble_labels_only (isa := Toy.assembler)).
  constructor; [|constructor; [|constructor; [|constructor]]].
  - right. exists {["loop"]}. split; [done|].
    exists 0%nat, (mkTSL 0 {["loop"]} ∅ []). by split_and!.
  - by left.
  - right. exists {["done"]}. split; [done|].
    exists 0%nat, (mkTSL 0 {["done"]} ∅ []). by split_and!.
Defined.

(** * Further properties of pass 1 *)

Section pass1_outcomes.
Context {isa : AssemblerBase}.

Lemma pass1_loop_closed_form (lines : Program) :
  ∀ st,
    pass1_loop lines st =
      mkPass1
        (p1_errors st ++
           omap (λ line, match expandPseudoOp line with
                         | inl e => Some e
                         | inr _ => None
                         end) lines)
        (p1_expandedLines st ++
           (lines ≫= λ line, match expandPseudoOp line with
                             | inl _ => []
                             | inr (Some eops) => pass1_expansion line eops
                             | inr None => [line]
                             end)).
Proof.
  unfold pass1_loop.
  induction lines as [|line lines IH]; intros st; cbn [foldl].
  - destruct st. simpl. by rewrite !app_nil_r.
  - rewrite IH. unfold pass1_step. cbn [omap mbind list_bind].
    destruct (expandPseudoOp line) as [e|[eops|]] eqn:Hx; simpl;
      rewrite ?Hx; simpl; by rewrite <- ?app_assoc.
Qed.

(** X10.  Pass 1 in closed form.  It goes through every line: its errors
    are the errors of [expandPseudoOp], in the order of the lines; with no
    error its result is, line after line, the expansion of the line or
    the line itself. *)
Theorem pass1_outcome (tokenizedLines : Program) :
  pass1 tokenizedLines =
    let errs := omap (λ line, match expandPseudoOp line with
                              | inl e => Some e
                              | inr _ => None
                              end) tokenizedLines in
    if bool_decide (errs ≠ []) then inl errs
    else inr (tokenizedLines ≫= λ line,
                match expandPseudoOp line with
                | inl _ => []
                | inr (Some eops) => pass1_expansion line eops
                | inr None => [line]
                end).
Proof. unfold pass1. by rewrite pass1_loop_closed_form. Qed.

(** X11.  A program none of whose lines begins with the name of a
    pseudo-instruction goes through pass 1 unchanged. *)
Theorem pass1_no_pseudo (tokenizedLines : Program) :
  Forall (λ line, ∀ opcode, head (tokens line) = Some opcode →
                            m_pseudoInstructionMap !! opcode = None)
    tokenizedLines →
  pass1 tokenizedLines = inr tokenizedLines.
Proof.
  intros Hall. unfold pass1. rewrite pass1_loop_closed_form. simpl.
  assert (∀ line, line ∈ tokenizedLines → expandPseudoOp line = inr None)
    as Hnone.
  { intros line Hin.
    pose proof (proj1 (Forall_forall _ _) Hall line Hin) as Hline.
    simpl in Hline. unfold expandPseudoOp.
    destruct (tokens line) as [|op args]; [done|].
    by rewrite (Hline op eq_refl). }
  clear Hall.
  assert (omap (λ line, match expandPseudoOp line with
                        | inl e => Some e
                        | inr _ => None
                        end) tokenizedLines = [] ∧
          (tokenizedLines ≫= λ line,
             match expandPseudoOp line with
             | inl _ => []
             | inr (Some eops) => pass1_expansion line eops
             | inr None => [line]
             end) = tokenizedLines) as [-> ->]; [|done].
  induction tokenizedLines as [|line lines IH]; [done|].
  destruct IH as [IH1 IH2]; [intros l Hl; apply Hnone; by right|].
  simpl. rewrite (Hnone line) by by left.
  split; [exact IH1|]. simpl. f_equal. exact IH2.
Qed.

End pass1_outcomes.

Lemma pass1_no_pseudo_witness :
  let tl := [mkTSL 0 {["a"]} ∅ ["addi"; "x1"; "x0"; "1"]; mkTSL 1 ∅ ∅ []] in
  pass1 (isa := Toy.assembler) tl = inr tl.
Proof.
  intros tl. apply (pass1_no_pseudo (isa := Toy.assembler)).
  constructor; [|constructor; [|constructor]].
  - intros opcode [= <-]. reflexivity.
  - intros opcode [=].
Defined.

(** * Further properties of pass 2 *)

Section pass2_outcomes.
Context {isa : AssemblerBase}.

(** The symbol loop of one line, by what it leaves in the map. *)
Lemma pass2_symbols_map (n : nat) (off : Z) (l : list string) :
  ∀ (sm : SymbolMap) (errs : Errors),
    dom (foldl (pass2_symbol n off) (sm, errs) l).1 =
      dom sm ∪ list_to_set l ∧
    ∀ s v, (foldl (pass2_symbol n off) (sm, errs) l).1 !! s = Some v →
           sm !! s = Some v ∨ v = off.
Proof.
  induction l as [|s l IH]; intros sm errs; cbn [foldl].
  - split; [set_solver|by left].
  - destruct (pass2_symbol n off (sm, errs) s) as [sm1 errs1] eqn:Hstep.
    destruct (IH sm1 errs1) as [Hdom Hval].
    rewrite Hdom, list_to_set_cons.
    unfold pass2_symbol in Hstep. cbn [fst snd] in Hstep.
    case_bool_decide as Hb; injection Hstep as <- <-.
    + split; [|done]. apply elem_of_dom in Hb. set_solver.
    + split; [rewrite dom_insert_L; set_solver|].
      intros s' v [Hs'|?]%Hval; [|by right].
      destruct (decide (s = s')) as [->|Hne].
      * rewrite lookup_insert_eq in Hs'. right. congruence.
      * rewrite lookup_insert_ne in Hs' by done. by left.
Qed.

(** One iteration of pass 2 is one of three things: an error, the bytes
    of a directive, or the word of an instruction. *)
Lemma pass2_step_cases (st : Pass2State) (line : TokenizedSrcLine) :
  let off := instr_offset_of (p2_program st) in
  let sym := pass2_symbols line off (p2_symbolMap st, p2_errors st) in
  (∃ e,
     (assembleDirective line = inl e ∨
      assembleDirective line = inr None ∧ assembleInstruction line = inl e) ∧
     pass2_step st line =
       mkPass2 (p2_program st) (sym.2 ++ [e]) sym.1 (p2_needsLinkage st)) ∨
  (∃ bytes,
     assembleDirective line = inr (Some bytes) ∧
     pass2_step st line =
       mkPass2 (p2_program st ++ bytes) sym.2 sym.1 (p2_needsLinkage st)) ∨
  (∃ machineCode,
     assembleDirective line = inr None ∧
     assembleInstruction line = inr machineCode ∧
     pass2_step st line =
       mkPass2 (p2_program st ++ word_bytes (instruction machineCode))
         sym.2 sym.1
         (p2_needsLinkage st ++
            if QString.isEmpty (symbol (linksWithSymbol machineCode)) then []
            else [{| req_sourceLine := sourceLine line;
                     offset := off;
                     fieldRequest := linksWithSymbol machineCode |}])).
Proof.
  intros off sym. unfold pass2_step. fold off. fold sym.
  destruct sym as [sm errs]. simpl.
  destruct (assembleDirective line) as [e|[bytes|]].
  - left. exists e. split; [by left|done].
  - right. left. by exists bytes.
  - destruct (assembleInstruction line) as [e|machineCode].
    + left. exists e. split; [by right|done].
    + right. right. exists machineCode. split_and!; [done|done|].
      destruct (QString.isEmpty _); simpl; [by rewrite app_nil_r|done].
Qed.

Lemma pass2_loop_snoc (lines : Program) (line : TokenizedSrcLine)
    (st : Pass2State) :
  pass2_loop (lines ++ [line]) st = pass2_step (pass2_loop lines st) line.
Proof. unfold pass2_loop. by rewrite foldl_app. Qed.

Lemma u32_mod_4 (z : Z) : u32 z mod 4 = z mod 4.
Proof.
  unfold u32. change (2 ^ 32) with (4 * 1073741824).
  rewrite Z.rem_mul_r by lia.
  rewrite (Z.mul_comm 4), Z.mod_add by lia.
  apply Z.mod_mod. lia.
Qed.

(** X12.  When every directive gives a whole number of words, so does
    pass 2: the size of its code is a multiple of 4, and so is the offset
    of every link request. *)
Theorem pass2_code_aligned (lines : Program) (symbolMap0 : SymbolMap) :
  (∀ opcode d line bytes,
     m_directivesMap !! opcode = Some d →
     handle d line = inr (Some bytes) →
     Z.of_nat (length bytes) mod 4 = 0) →
  let st := pass2_loop lines (mkPass2 [] [] symbolMap0 []) in
  Z.of_nat (length (p2_program st)) mod 4 = 0 ∧
  ∀ req, req ∈ p2_needsLinkage st → offset req mod 4 = 0.
Proof.
  intros Hdir.
  induction lines as [|line lines IH] using rev_ind.
  - simpl. split; [done|]. intros req Hin. by apply elem_of_nil in Hin.
  - cbn zeta in *. rewrite pass2_loop_snoc.
    set (st := pass2_loop lines _) in *. destruct IH as [Hlen Hlinks].
    destruct (pass2_step_cases st line)
      as [(e & _ & ->)|[(bytes & Hd & ->)|(mc & _ & _ & ->)]]; simpl.
    + done.
    + split; [|done]. rewrite length_app, Nat2Z.inj_add.
      unfold assembleDirective in Hd.
      destruct (tokens line) as [|op args]; [done|].
      destruct (m_directivesMap !! op) as [d|] eqn:Hop; [|done].
      rewrite Z.add_mod, Hlen, (Hdir op d line bytes Hop Hd) by lia. done.
    + split.
      * rewrite length_app, Nat2Z.inj_add. simpl length.
        rewrite Z.add_mod, Hlen by lia. done.
      * intros req [Hin|Hin]%elem_of_app; [by apply Hlinks|].
        destruct (QString.isEmpty _); [by apply elem_of_nil in Hin|].
        apply list_elem_of_singleton in Hin. subst req. simpl.
        unfold instr_offset_of. by rewrite u32_mod_4.
Qed.

(** X13.  A program without directive lines that gets through pass 2
    gives four bytes a line. *)
Theorem pass2_code_size (lines : Program) (symbolMap0 : SymbolMap)
    (links0 : LinkRequests) (code : QByteArray) (symbolMap : SymbolMap)
    (links : LinkRequests) :
  Forall (λ line, ∀ opcode, head (tokens line) = Some opcode →
                            m_directivesMap !! opcode = None) lines →
  pass2 lines symbolMap0 links0 = (inr code, symbolMap, links) →
  length code = (4 * length lines)%nat.
Proof.
  intros Hall Hst%pass2_inr. revert code symbolMap links Hst.
  induction lines as [|line lines IH] using rev_ind;
    intros code symbolMap links Hst.
  - simpl in Hst. by simplify_eq.
  - apply Forall_app in Hall as [Hall Hline].
    rewrite Forall_singleton in Hline.
    rewrite pass2_loop_snoc in Hst.
    destruct (pass2_loop lines _) as [p e m l] eqn:Hloop.
    destruct (pass2_step_cases (mkPass2 p e m l) line)
      as [(err & _ & Hstep)|[(bytes & Hd & Hstep)|(mc & _ & _ & Hstep)]];
      rewrite Hstep in Hst; simpl in Hst.
    + injection Hst as _ Herr _ _. by apply app_eq_nil in Herr as [_ ?].
    + unfold assembleDirective in Hd.
      destruct (tokens line) as [|op args]; [done|].
      by rewrite (Hline op eq_refl) in Hd.
    + injection Hst as <- Herr _ _.
      destruct (pass2_symbols_spec (sourceLine line) (instr_offset_of p)
                  (set_iter (symbols line)) m e)
        as (sm' & extra & Hfold & _).
      unfold pass2_symbols in Herr. rewrite Hfold in Herr. simpl in Herr.
      apply app_eq_nil in Herr as [-> _].
      rewrite !length_app. simpl.
      rewrite (IH Hall p m l) by done. lia.
Qed.

(** X14.  Pass 2 started with no symbol binds exactly the symbols that its
    lines define, each to an offset inside the code or at its end. *)
Theorem pass2_symbol_map (lines : Program) (links0 : LinkRequests) :
  let st := pass2_loop lines (mkPass2 [] [] ∅ links0) in
  dom (p2_symbolMap st) = ⋃ (symbols <$> lines) ∧
  ∀ s v, p2_symbolMap st !! s = Some v →
         0 ≤ v ≤ Z.of_nat (length (p2_program st)).
Proof.
  induction lines as [|line lines IH] using rev_ind.
  - simpl. split; [set_solver|]. intros s v Hs. by rewrite lookup_empty in Hs.
  - cbn zeta in *. rewrite pass2_loop_snoc.
    set (st := pass2_loop lines _) in *. destruct IH as [Hdom Hval].
    destruct (pass2_symbols_map (sourceLine line)
                (instr_offset_of (p2_program st)) (set_iter (symbols line))
                (p2_symbolMap st) (p2_errors st)) as [Hd Hv].
    assert (dom (p2_symbolMap (pass2_step st line)) =
              ⋃ (symbols <$> lines ++ [line]) ∧
            (∀ s v, p2_symbolMap (pass2_step st line) !! s = Some v →
                    0 ≤ v ≤ Z.of_nat (length (p2_program st))) ∧
            (length (p2_program st) ≤
               length (p2_program (pass2_step st line)))%nat)
      as (? & Hv' & Hlen).
    { assert (p2_symbolMap (pass2_step st line) =
                (pass2_symbols line (instr_offset_of (p2_program st))
                   (p2_symbolMap st, p2_errors st)).1) as ->.
      { destruct (pass2_step_cases st line)
          as [(? & _ & ->)|[(? & _ & ->)|(? & _ & _ & ->)]]; done. }
      unfold pass2_symbols. split_and!.
      - rewrite Hd, Hdom, fmap_app, union_list_app_L. simpl.
        rewrite (right_id_L ∅ (∪)). f_equal.
        apply set_eq. intros s.
        by rewrite elem_of_list_to_set, elem_of_set_iter.
      - intros s v Hs. apply Hv in Hs as [Hs| ->].
        + apply Hval in Hs. lia.
        + apply u32_bounds.
      - destruct (pass2_step_spec st line) as (b & _ & -> & _).
        rewrite length_app. lia. }
    split; [done|]. intros s v Hs. specialize (Hv' s v Hs). lia.
Qed.

(** Link requests come in the order of their offsets, a word apart. *)
Lemma pass2_loop_links_apart (lines : Program) (symbolMap0 : SymbolMap) :
  let st := pass2_loop lines (mkPass2 [] [] symbolMap0 []) in
  Z.of_nat (length (p2_program st)) < 2 ^ 32 →
  StronglySorted (λ a b, offset a + 4 ≤ offset b) (p2_needsLinkage st).
Proof.
  induction lines as [|line lines IH] using rev_ind.
  - intros st _. constructor.
  - cbn zeta in *. rewrite pass2_loop_snoc.
    assert (∀ req,
              req ∈ p2_needsLinkage
                      (pass2_loop lines (mkPass2 [] [] symbolMap0 [])) →
              word_in_bounds
                (p2_program (pass2_loop lines (mkPass2 [] [] symbolMap0 [])))
                (offset req)) as Hbounds.
    { apply pass2_loop_link_bounds. simpl. intros req Hin.
      by apply elem_of_nil in Hin. }
    set (st := pass2_loop lines _) in *.
    destruct (pass2_step_cases st line)
      as [(? & _ & ->)|[(bytes & _ & ->)|(mc & _ & _ & ->)]]; simpl.
    + done.
    + intros Hlen. apply IH. rewrite length_app in Hlen. lia.
    + intros Hlen. rewrite length_app in Hlen. simpl in Hlen.
      apply StronglySorted_app_2.
      * intros a b Ha Hb.
        destruct (QString.isEmpty _); [by apply elem_of_nil in Hb|].
        apply list_elem_of_singleton in Hb. subst b. simpl.
        destruct (Hbounds a Ha) as [_ Hle].
        unfold instr_offset_of, u32. rewrite Z.mod_small by lia. done.
      * apply IH. lia.
      * destruct (QString.isEmpty _); repeat constructor.
Qed.

(** X15.  While the code stays below 2^32 bytes, the link requests of
    pass 2 come in the order of their offsets and at least one word
    apart: no two of them name the same word. *)
Theorem pass2_links_apart (lines : Program) (symbolMap0 : SymbolMap) :
  let st := pass2_loop lines (mkPass2 [] [] symbolMap0 []) in
  Z.of_nat (length (p2_program st)) < 2 ^ 32 →
  StronglySorted (λ a b, offset a + 4 ≤ offset b) (p2_needsLinkage st).
Proof. apply pass2_loop_links_apart. Qed.

End pass2_outcomes.

Lemma pass2_code_aligned_witness :
  let st := pass2_loop (isa := Toy.assembler)
              [mkTSL 0 ∅ ∅ ["jal"; "ra"; "end"];
               mkTSL 1 ∅ {[".zero4"]} [".zero4"];
               mkTSL 2 {["end"]} ∅ ["jal"; "ra"; "end"]]
              (mkPass2 [] [] ∅ []) in
  Z.of_nat (length (p2_program st)) mod 4 = 0 ∧
  ∀ req, req ∈ p2_needsLinkage st → offset req mod 4 = 0.
Proof.
  apply (pass2_code_aligned (isa := Toy.assembler) _ ∅).
  intros opcode d line bytes Hop Hh. simpl in Hop.
  apply lookup_insert_Some in Hop as [[<- <-]|[_ Hop]].
  { simpl in Hh. by simplify_eq. }
  apply lookup_insert_Some in Hop as [[<- <-]|[_ Hop]].
  { simpl in Hh. by simplify_eq. }
  by rewrite lookup_empty in Hop.
Defined.

Lemma pass2_code_size_witness :
  length (word_bytes 19 ++ word_bytes 111) =
    (4 * length [mkTSL 0 {["a"]} ∅ ["addi"; "x1"; "x0"; "1"];
                 mkTSL 1 ∅ ∅ ["jal"; "ra"; "a"]])%nat.
Proof.
  eapply (pass2_code_size (isa := Toy.assembler) _ ∅ []).
  - constructor; [|constructor; [|constructor]];
      intros opcode [= <-]; reflexivity.
  - by vm_compute.
Defined.

Lemma pass2_links_apart_witness :
  let st := pass2_loop (isa := Toy.assembler)
              [mkTSL 0 ∅ ∅ ["jal"; "ra"; "end"];
               mkTSL 1 {["end"]} ∅ ["jal"; "ra"; "end"]]
              (mkPass2 [] [] ∅ []) in
  StronglySorted (λ a b, offset a + 4 ≤ offset b) (p2_needsLinkage st).
Proof.
  apply (pass2_links_apart (isa := Toy.assembler) _ ∅).
  by vm_compute.
Defined.

(** * Words in the code image, and pass 3 *)

Section words.

Lemma Z_of_byte_of_Z (z : Z) : Z_of_byte (byte_of_Z z) = z mod 256.
Proof.
  unfold Z_of_byte, byte_of_Z.
  pose proof (Z.mod_pos_bound z 256 eq_refl) as Hb.
  destruct (Byte.of_N (Z.to_N (z mod 256))) as [b|] eqn:Hof; simpl.
  - apply Byte.to_of_N in Hof. rewrite Hof. lia.
  - apply Byte.of_N_None_iff in Hof. lia.
Qed.

Lemma bytes_word_word_bytes (w : Z) : bytes_word (word_bytes w) = u32 w.
Proof.
  unfold bytes_word, word_bytes, u32. cbn [foldr].
  rewrite !Z_of_byte_of_Z, !Z.shiftr_div_pow2 by lia.
  change (2 ^ 32) with (256 * (256 * (256 * 256))).
  rewrite (Z.rem_mul_r w 256) by lia.
  rewrite (Z.rem_mul_r (w / 256) 256) by lia.
  rewrite (Z.rem_mul_r (w / 256 / 256) 256) by lia.
  rewrite !Z.div_div by lia.
  change (2 ^ 8) with 256. change (2 ^ 16) with (256 * 256).
  change (2 ^ 24) with (256 * 256 * 256). lia.
Qed.

(** Inside the array, writing a word replaces its four bytes. *)
Lemma write_word_in_bounds (p : QByteArray) (off w : Z) :
  word_in_bounds p off →
  write_word p off w =
    take (Z.to_nat off) p ++ word_bytes w ++ drop (Z.to_nat off + 4) p.
Proof.
  intros [H0 Hlen]. unfold write_word.
  set (i := Z.to_nat off).
  assert (i + 4 ≤ length p)%nat as Hi by lia.
  rewrite <- (take_drop i p) at 1.
  assert (length (take i p) = i) as Hti by (rewrite length_take; lia).
  destruct (drop i p) as [|c0 [|c1 [|c2 [|c3 rest]]]] eqn:Hd;
    try (apply (f_equal length) in Hd; rewrite length_drop in Hd;
         simpl in Hd; lia).
  assert (drop (i + 4) p = rest) as ->.
  { rewrite <- drop_drop, Hd. done. }
  rewrite !insert_app_r_alt by (rewrite Hti; lia).
  rewrite Hti.
  replace (i - i)%nat with 0%nat by lia.
  replace (i + 1 - i)%nat with 1%nat by lia.
  replace (i + 2 - i)%nat with 2%nat by lia.
  replace (i + 3 - i)%nat with 3%nat by lia.
  done.
Qed.

Lemma read_write_same (p : QByteArray) (off w : Z) :
  word_in_bounds p off →
  read_word (write_word p off w) off = u32 w.
Proof.
  intros Hb. rewrite write_word_in_bounds by done. unfold read_word.
  destruct Hb as [H0 Hlen].
  rewrite drop_app_length'; [|rewrite length_take; lia].
  change (take 4 (word_bytes w ++ ?q)) with (word_bytes w).
  apply bytes_word_word_bytes.
Qed.

Lemma write_word_lookup_other (p : QByteArray) (off w : Z) (i : nat) :
  ¬ (Z.to_nat off ≤ i < Z.to_nat off + 4)%nat →
  write_word p off w !! i = p !! i.
Proof.
  intros Hi. unfold write_word.
  rewrite !list_lookup_insert_ne by lia. done.
Qed.

Lemma read_word_ext (p q : QByteArray) (off : Z) :
  (∀ i, (Z.to_nat off ≤ i < Z.to_nat off + 4)%nat → p !! i = q !! i) →
  read_word p off = read_word q off.
Proof.
  intros Hext. unfold read_word. f_equal. apply list_eq. intros k.
  destruct (decide (k < 4)%nat) as [Hk|Hk].
  - rewrite !lookup_take_lt, !lookup_drop by done. apply Hext. lia.
  - rewrite !lookup_take_ge by lia. done.
Qed.

Lemma read_write_apart (p : QByteArray) (off off' w : Z) :
  0 ≤ off → 0 ≤ off' →
  off + 4 ≤ off' ∨ off' + 4 ≤ off →
  read_word (write_word p off w) off' = read_word p off'.
Proof.
  intros H0 H0' Hapart. apply read_word_ext. intros i Hi.
  apply write_word_lookup_other. lia.
Qed.

(** X16.  A word written to the image reads back as itself, cut to 32
    bits: [word_bytes] gives four bytes that [bytes_word] puts together
    again, and so does a word appended to the code. *)
Theorem word_round_trip (p q : QByteArray) (w : Z) :
  length (word_bytes w) = 4%nat ∧
  bytes_word (word_bytes w) = u32 w ∧
  read_word (p ++ word_bytes w ++ q) (Z.of_nat (length p)) = u32 w.
Proof.
  split_and!; [done|apply bytes_word_word_bytes|].
  unfold read_word. rewrite Nat2Z.id, drop_app_length.
  change (take 4 (word_bytes w ++ q)) with (word_bytes w).
  apply bytes_word_word_bytes.
Qed.

(** X17.  Writing a word inside the array: the size stays, the word reads
    back cut to 32 bits, and every byte outside its four is as before. *)
Theorem write_word_spec (p : QByteArray) (off w : Z) :
  word_in_bounds p off →
  length (write_word p off w) = length p ∧
  read_word (write_word p off w) off = u32 w ∧
  ∀ i, ¬ (Z.to_nat off ≤ i < Z.to_nat off + 4)%nat →
       write_word p off w !! i = p !! i.
Proof.
  intros Hb. split_and!.
  - apply write_word_length.
  - by apply read_write_same.
  - intros i. apply write_word_lookup_other.
Qed.

Lemma write_word_spec_witness :
  length (write_word (word_bytes 19 ++ word_bytes 111) 4 32879) =
    length (word_bytes 19 ++ word_bytes 111) ∧
  read_word (write_word (word_bytes 19 ++ word_bytes 111) 4 32879) 4 =
    u32 32879 ∧
  ∀ i, ¬ (Z.to_nat 4 ≤ i < Z.to_nat 4 + 4)%nat →
       write_word (word_bytes 19 ++ word_bytes 111) 4 32879 !! i =
         (word_bytes 19 ++ word_bytes 111) !! i.
Proof.
  apply (write_word_spec (word_bytes 19 ++ word_bytes 111) 4 32879).
  split; simpl; lia.
Defined.

End words.

Section pass3_outcomes.
Context {isa : AssemblerBase}.

Lemma pass3_loop_errors (symbolMap : SymbolMap) (links : LinkRequests) :
  ∀ st st',
    pass3_loop symbolMap links st = inr st' →
    p3_errors st' =
      p3_errors st ++
      omap (λ req,
              match symbolMap !! symbol (fieldRequest req) with
              | None =>
                  Some (mkError (req_sourceLine req)
                          ("Unknown symbol '" +:+
                           symbol (fieldRequest req) +:+ "'"))
              | Some _ => None
              end) links.
Proof.
  induction links as [|req links IH]; intros st st'; cbn [pass3_loop].
  - intros [= <-]. simpl. by rewrite app_nil_r.
  - destruct (pass3_step symbolMap st req) as [?|st1] eqn:Hstep; [done|].
    cbn [bindE]. intros Hloop%IH. rewrite Hloop.
    apply pass3_step_inr in Hstep. cbn [omap list_omap].
    destruct (symbolMap !! symbol (fieldRequest req)) eqn:Hs.
    + by destruct Hstep as [-> _].
    + subst st1. simpl. by rewrite <- app_assoc.
Qed.

(** With the [assert]s compiled in, pass 3 gets through its loop only if
    every request whose symbol is bound passes both of them. *)
Lemma pass3_loop_asserts (symbolMap : SymbolMap) (links : LinkRequests) :
  ∀ st st',
    pass3_loop symbolMap links st = inr st' →
    NDEBUG = false →
    ∀ req, req ∈ links →
      is_Some (symbolMap !! symbol (fieldRequest req)) →
      u32 (Z.of_nat (length (p3_program st))) ≤ u32 (offset req + 4) ∧
      is_Some (field (fieldRequest req)).
Proof.
  induction links as [|req0 links IH]; intros st st'; cbn [pass3_loop].
  - intros _ _ req Hin. by apply elem_of_nil in Hin.
  - destruct (pass3_step symbolMap st req0) as [?|st1] eqn:Hstep; [done|].
    cbn [bindE]. intros Hloop Hdebug req Hin [v Hv].
    apply elem_of_cons in Hin as [->|Hin].
    + apply pass3_step_inr in Hstep. rewrite Hv in Hstep.
      destruct Hstep as [_ Hassert]. by apply Hassert.
    + rewrite <- (pass3_step_length _ _ _ _ Hstep).
      by apply (IH _ _ Hloop Hdebug req Hin); exists v.
Qed.

(** Pass 3 aborts only with the [assert]s compiled in, at a request whose
    symbol is bound and which fails one of them. *)
Lemma pass3_loop_inl (symbolMap : SymbolMap) (links : LinkRequests) :
  ∀ st abort,
    pass3_loop symbolMap links st = inl abort →
    NDEBUG = false ∧
    ∃ req,
      req ∈ links ∧
      is_Some (symbolMap !! symbol (fieldRequest req)) ∧
      (abort = assertion_failed
                 "Error: position of link request is not within program" ∧
       u32 (offset req + 4) < u32 (Z.of_nat (length (p3_program st))) ∨
       abort = assertion_failed
                 "Something other than an immediate field has requested linkage?" ∧
       u32 (Z.of_nat (length (p3_program st))) ≤ u32 (offset req + 4) ∧
       field (fieldRequest req) = None).
Proof.
  induction links as [|req0 links IH]; intros st abort; cbn [pass3_loop];
    [done|].
  destruct (pass3_step symbolMap st req0) as [abort0|st1] eqn:Hstep;
    cbn [bindE].
  - intros [= <-]. apply pass3_step_inl in Hstep as (Hdebug & Hv & Hwhy).
    split; [done|]. exists req0. split_and!; [left|done|done].
  - intros (Hdebug & req & Hin & Hv & Hwhy)%IH.
    rewrite (pass3_step_length _ _ _ _ Hstep) in Hwhy.
    split; [done|]. exists req. split_and!; [by right|done|done].
Qed.

Lemma pass3_inr (code : QByteArray) (symbolMap : SymbolMap)
    (links : LinkRequests) (res : Errors + unit) (code' : QByteArray) :
  pass3 code symbolMap links = inr (res, code') →
  ∃ st', pass3_loop symbolMap links (mkPass3 code []) = inr st' ∧
         res = (if bool_decide (p3_errors st' ≠ []) then inl (p3_errors st')
                else inr ()) ∧
         code' = p3_program st'.
Proof.
  unfold pass3. destruct (pass3_loop _ _ _) as [?|st']; [done|].
  cbn [bindE]. intros [= <- <-]. by exists st'.
Qed.

(** X18.  Pass 3 in full.  When it returns, it has gone through every
    link request: it fails exactly when the symbol of some request is not
    in the map, with one error [Unknown symbol] a request of that kind,
    in their order, and the size of the code is as before.  It always
    returns when [NDEBUG] is defined.  With the [assert]s compiled in it
    returns only if every request whose symbol is bound has an immediate
    field and a word that does not end before the end of the code, and
    it aborts at a request that has not. *)
Theorem pass3_outcome (code : QByteArray) (symbolMap : SymbolMap)
    (links : LinkRequests) :
  match pass3 code symbolMap links with
  | inr (res, code') =>
      res =
        (let errs :=
           omap (λ req,
                   match symbolMap !! symbol (fieldRequest req) with
                   | None =>
                       Some (mkError (req_sourceLine req)
                               ("Unknown symbol '" +:+
                                symbol (fieldRequest req) +:+ "'"))
                   | Some _ => None
                   end) links in
         if bool_decide (errs ≠ []) then inl errs else inr ()) ∧
      length code' = length code ∧
      (NDEBUG = false →
       ∀ req, req ∈ links →
         is_Some (symbolMap !! symbol (fieldRequest req)) →
         u32 (Z.of_nat (length code)) ≤ u32 (offset req + 4) ∧
         is_Some (field (fieldRequest req)))
  | inl abort =>
      NDEBUG = false ∧
      ∃ req,
        req ∈ links ∧
        is_Some (symbolMap !! symbol (fieldRequest req)) ∧
        (abort = assertion_failed
                   "Error: position of link request is not within program" ∧
         u32 (offset req + 4) < u32 (Z.of_nat (length code)) ∨
         abort = assertion_failed
                   "Something other than an immediate field has requested linkage?" ∧
         u32 (Z.of_nat (length code)) ≤ u32 (offset req + 4) ∧
         field (fieldRequest req) = None)
  end.
Proof.
  destruct (pass3 code symbolMap links) as [abort|[res code']] eqn:Hp3.
  - unfold pass3 in Hp3.
    destruct (pass3_loop _ _ _) as [abort'|?] eqn:Hloop; [|done].
    injection Hp3 as ->. by apply pass3_loop_inl in Hloop.
  - apply pass3_inr in Hp3 as (st' & Hloop & -> & ->).
    rewrite (pass3_loop_errors _ _ _ _ Hloop),
      (pass3_loop_length _ _ _ _ Hloop).
    split_and!; [done|done|].
    intros Hdebug. apply (pass3_loop_asserts _ _ _ _ Hloop Hdebug).
Qed.

Lemma pass3_step_lookup_other (symbolMap : SymbolMap) (st st' : Pass3State)
    (req : LinkRequest) (i : nat) :
  ¬ (Z.to_nat (offset req) ≤ i < Z.to_nat (offset req) + 4)%nat →
  pass3_step symbolMap st req = inr st' →
  p3_program st' !! i = p3_program st !! i.
Proof.
  intros Hi Hstep%pass3_step_inr.
  destruct (symbolMap !! _); [destruct Hstep as [-> _]|by subst st'].
  by apply write_word_lookup_other.
Qed.

Lemma pass3_loop_lookup_other (symbolMap : SymbolMap) (links : LinkRequests)
    (i : nat) :
  (∀ req, req ∈ links →
          ¬ (Z.to_nat (offset req) ≤ i < Z.to_nat (offset req) + 4)%nat) →
  ∀ st st', pass3_loop symbolMap links st = inr st' →
            p3_program st' !! i = p3_program st !! i.
Proof.
  induction links as [|req links IH]; intros Hout st st'; cbn [pass3_loop].
  - by intros [= <-].
  - destruct (pass3_step symbolMap st req) as [?|st1] eqn:Hstep; [done|].
    cbn [bindE]. intros Hloop.
    rewrite (IH (λ r Hr, Hout r (proj2 (elem_of_cons _ _ _) (or_intror Hr)))
               _ _ Hloop).
    apply (pass3_step_lookup_other symbolMap st st1 req); [|done].
    apply Hout. left.
Qed.

(** X19.  Pass 3 writes nowhere but in the words of its link requests: a
    byte outside the four bytes of every request is, when the pass
    returns, as pass 2 left it. *)
Theorem pass3_untouched (code : QByteArray) (symbolMap : SymbolMap)
    (links : LinkRequests) (i : nat) (res : Errors + unit)
    (code' : QByteArray) :
  (∀ req, req ∈ links →
          ¬ (Z.to_nat (offset req) ≤ i < Z.to_nat (offset req) + 4)%nat) →
  pass3 code symbolMap links = inr (res, code') →
  code' !! i = code !! i.
Proof.
  intros Hout (st' & Hloop & _ & ->)%pass3_inr.
  by rewrite (pass3_loop_lookup_other _ _ _ Hout _ _ Hloop).
Qed.

(** The word pass 3 leaves at a request: the one it read there, put
    through the field's resolution if the field is an immediate. *)
Lemma pass3_loop_patched (symbolMap : SymbolMap) (links : LinkRequests) :
  StronglySorted (λ a b, offset a + 4 ≤ offset b) links →
  ∀ st st',
    Forall (λ req, word_in_bounds (p3_program st) (offset req)) links →
    pass3_loop symbolMap links st = inr st' →
    ∀ req v,
      req ∈ links →
      symbolMap !! symbol (fieldRequest req) = Some v →
      read_word (p3_program st') (offset req) =
        u32 (match field (fieldRequest req) with
             | Some immField =>
                 applySymbolResolution immField v
                   (read_word (p3_program st) (offset req)) (offset req)
             | None => read_word (p3_program st) (offset req)
             end).
Proof.
  induction 1 as [|req0 links Hsorted IH Hapart];
    intros st st' Hb Hloop req v Hin Hv.
  { by apply elem_of_nil in Hin. }
  apply Forall_cons in Hb as [Hb0 Hb]. cbn [pass3_loop] in Hloop.
  destruct (pass3_step symbolMap st req0) as [?|st1] eqn:Hstep; [done|].
  cbn [bindE] in Hloop.
  assert (Forall (λ r, word_in_bounds (p3_program st1) (offset r)) links)
    as Hb'.
  { eapply Forall_impl; [exact Hb|]. intros r [? ?]. split; [done|].
    by rewrite (pass3_step_length _ _ _ _ Hstep). }
  apply elem_of_cons in Hin as [->|Hin'].
  - assert (read_word (p3_program st') (offset req0) =
            read_word (p3_program st1) (offset req0)) as ->.
    { apply read_word_ext. intros i Hi.
      apply (pass3_loop_lookup_other symbolMap links i); [|done].
      intros r Hr. apply (proj1 (Forall_forall _ _) Hapart) in Hr.
      destruct Hb0. lia. }
    apply pass3_step_inr in Hstep. rewrite Hv in Hstep.
    destruct Hstep as [-> _]. simpl.
    by apply read_write_same.
  - rewrite (IH _ _ Hb' Hloop req v Hin' Hv). do 2 f_equal.
    assert (read_word (p3_program st1) (offset req) =
            read_word (p3_program st) (offset req)) as ->; [|done].
    apply pass3_step_inr in Hstep.
    destruct (symbolMap !! symbol (fieldRequest req0));
      [destruct Hstep as [-> _]|by subst st1]. simpl.
    apply read_write_apart.
    + by destruct Hb0.
    + by destruct (proj1 (Forall_forall _ _) Hb req Hin').
    + left. by apply (proj1 (Forall_forall _ _) Hapart req).
Qed.

End pass3_outcomes.

Lemma pass3_untouched_witness :
  let isa := Toy.assembler in
  let code' := word_bytes 19 ++ word_bytes (111 + 4096 * 4) in
  pass3 (word_bytes 19 ++ word_bytes 111) {["end" := 8]}
    [{| req_sourceLine := 1; offset := 4;
        fieldRequest := {| field := Some Toy.jal_imm; symbol := "end" |} |}]
    = inr (inr (), code') ∧
  code' !! 2%nat = (word_bytes 19 ++ word_bytes 111) !! 2%nat.
Proof.
  intros isa code'.
  assert (pass3 (word_bytes 19 ++ word_bytes 111) {["end" := 8]}
            [{| req_sourceLine := 1; offset := 4;
                fieldRequest := {| field := Some Toy.jal_imm;
                                   symbol := "end" |} |}]
            = inr (inr (), code')) as Hp3 by by vm_compute.
  split; [done|].
  refine (pass3_untouched (isa := Toy.assembler) _ _ _ 2%nat _ _ _ Hp3).
  intros req Hreq%list_elem_of_singleton. subst req. simpl. lia.
Defined.

Section linking.
Context {isa : AssemblerBase}.

(** X20.  Passes 2 and 3 together, for a code below 2^32 bytes.  When
    pass 3 returns, the word at a link request whose symbol is bound is
    the word pass 2 put there, put once through [applySymbolResolution]
    of the field with the value of the symbol and the offset of the word
    (or left as it is when the field is no immediate, which only a build
    with [NDEBUG] lets through).  With the [assert]s compiled in, such a
    request is the last word of the code. *)
Theorem linked_word (expandedLines : Program) (symbolMap0 : SymbolMap)
    (code : QByteArray) (symbolMap : SymbolMap) (links : LinkRequests)
    (req : LinkRequest) (v : Z) (res : Errors + unit)
    (code' : QByteArray) :
  pass2 expandedLines symbolMap0 [] = (inr code, symbolMap, links) →
  Z.of_nat (length code) < 2 ^ 32 →
  pass3 code symbolMap links = inr (res, code') →
  req ∈ links →
  symbolMap !! symbol (fieldRequest req) = Some v →
  read_word code' (offset req) =
    u32 (match field (fieldRequest req) with
         | Some immField =>
             applySymbolResolution immField v
               (read_word code (offset req)) (offset req)
         | None => read_word code (offset req)
         end) ∧
  (NDEBUG = false →
   offset req + 4 = Z.of_nat (length code) ∧
   is_Some (field (fieldRequest req))).
Proof.
  intros Hp2%pass2_inr Hlen (st' & Hloop & _ & ->)%pass3_inr Hin Hv.
  pose proof (pass2_loop_links_apart expandedLines symbolMap0) as Hapart.
  pose proof (pass2_loop_link_bounds expandedLines
                (mkPass2 [] [] symbolMap0 [])) as Hbounds.
  cbn zeta in Hapart. rewrite Hp2 in Hapart, Hbounds. simpl in *.
  assert (∀ r, r ∈ links → word_in_bounds code (offset r)) as Hb.
  { apply Hbounds. intros r Hr. by apply elem_of_nil in Hr. }
  split.
  - apply (pass3_loop_patched symbolMap links (Hapart Hlen)
             (mkPass3 code []) st'); [|done|done|done].
    by apply Forall_forall.
  - intros Hdebug.
    destruct (pass3_loop_asserts _ _ _ _ Hloop Hdebug req Hin)
      as [Hpos Hfield]; [by exists v|].
    split; [|done]. destruct (Hb req Hin) as [H0 H4]. simpl in Hpos.
    unfold u32 in Hpos.
    rewrite !Z.mod_small in Hpos by lia. lia.
Qed.

End linking.

Lemma linked_word_witness :
  let isa := Toy.assembler in
  let code := word_bytes 19 ++ word_bytes 111 in
  let code' := word_bytes 19 ++ word_bytes (111 + 4096 * (0 - 4)) in
  read_word code' 4 =
    u32 (applySymbolResolution Toy.jal_imm 0 (read_word code 4) 4) ∧
  (NDEBUG = false →
   4 + 4 = Z.of_nat (length code) ∧ is_Some (Some Toy.jal_imm)).
Proof.
  intros isa code code'.
  apply (linked_word (isa := Toy.assembler)
           [mkTSL 0 {["start"]} ∅ ["addi"; "x0"; "x0"; "0"];
            mkTSL 1 ∅ ∅ ["jal"; "ra"; "start"]] ∅
           code {["start" := 0]}
           [{| req_sourceLine := 1; offset := 4;
               fieldRequest := {| field := Some Toy.jal_imm;
                                  symbol := "start" |} |}]
           {| req_sourceLine := 1; offset := 4;
              fieldRequest := {| field := Some Toy.jal_imm;
                                 symbol := "start" |} |} 0
           (inr ()) code').
  - reflexivity.
  - by vm_compute.
  - by vm_compute.
  - set_solver.
  - reflexivity.
Defined.

(** * Further properties of [assemble] *)

Section assemble_outcomes.
Context {isa : AssemblerBase}.

(** X21.  [assemble] in full.  Either some pass is reached and fails, and
    the result is its errors and no program; or the four passes succeed,
    and the result is the code of pass 2 as patched by pass 3, of the
    same size, and no error; or passes 0 to 2 succeed and an [assert] of
    pass 3 fails, and [assemble] does not return.  The last is for a
    build without [NDEBUG] only. *)
Theorem assemble_outcome (programLines : list string) :
  (∃ K errs,
     pass_fails programLines K errs ∧ errs ≠ [] ∧
     assemble programLines = inr {| program := []; errors := errs |}) ∨
  (∃ tokenizedLines expandedLines code symbolMap needsLinkage code',
     pass0 programLines = inr tokenizedLines ∧
     pass1 tokenizedLines = inr expandedLines ∧
     pass2 expandedLines ∅ [] = (inr code, symbolMap, needsLinkage) ∧
     pass3 code symbolMap needsLinkage = inr (inr (), code') ∧
     length code' = length code ∧
     assemble programLines = inr {| program := code'; errors := [] |}) ∨
  (∃ tokenizedLines expandedLines code symbolMap needsLinkage abort,
     pass0 programLines = inr tokenizedLines ∧
     pass1 tokenizedLines = inr expandedLines ∧
     pass2 expandedLines ∅ [] = (inr code, symbolMap, needsLinkage) ∧
     pass3 code symbolMap needsLinkage = inl abort ∧
     NDEBUG = false ∧
     assemble programLines = inl abort).
Proof.
  unfold assemble.
  destruct (pass0 programLines) as [errs|tl] eqn:Hp0.
  { left. exists Pass0, errs. split_and!; [done|by eapply pass0_inl|done]. }
  cbn [runPass].
  destruct (pass1 tl) as [errs|el] eqn:Hp1.
  { left. exists Pass1, errs.
    split_and!; [by exists tl|by eapply pass1_inl|done]. }
  cbn [runPass].
  destruct (pass2 el ∅ []) as [[[errs|code] sm] links] eqn:Hp2.
  { left. exists Pass2, errs.
    split_and!; [by exists tl, el, sm, links|by eapply pass2_inl|done]. }
  cbn [runPass].
  destruct (pass3 code sm links) as [abort|[[errs|[]] code']] eqn:Hp3.
  { right. right. exists tl, el, code, sm, links, abort.
    split_and!; try done.
    unfold pass3 in Hp3.
    destruct (pass3_loop _ _ _) as [?|?] eqn:Hloop; [|done].
    by apply pass3_loop_inl in Hloop as [? _]. }
  { left. exists Pass3, errs.
    split_and!; [by exists tl, el, code, sm, links, code'
                |by eapply pass3_inl|done]. }
  right. left. exists tl, el, code, sm, links, code'.
  split_and!; try done.
  apply pass3_inr in Hp3 as (st' & Hloop & _ & ->).
  apply (pass3_loop_length _ _ _ _ Hloop).
Qed.

End assemble_outcomes.

Section asserts_compiled_in.
Context {isa : AssemblerBase}.

(** X29.  A build with the [assert]s, and a program that gets through
    passes 0 to 2 with less than 2^32 bytes of code.  If some link request
    whose symbol is bound is not the last word of the code, the first
    [assert] of pass 3 stops the pass: [assemble] aborts and returns
    nothing. *)
Theorem assemble_aborts (programLines : list string)
    (tokenizedLines expandedLines : Program) (code : QByteArray)
    (symbolMap : SymbolMap) (needsLinkage : LinkRequests)
    (req : LinkRequest) :
  NDEBUG = false →
  pass0 programLines = inr tokenizedLines →
  pass1 tokenizedLines = inr expandedLines →
  pass2 expandedLines ∅ [] = (inr code, symbolMap, needsLinkage) →
  Z.of_nat (length code) < 2 ^ 32 →
  req ∈ needsLinkage →
  is_Some (symbolMap !! symbol (fieldRequest req)) →
  offset req + 4 < Z.of_nat (length code) →
  ∃ abort,
    pass3 code symbolMap needsLinkage = inl abort ∧
    assemble programLines = inl abort.
Proof.
  intros Hdebug Hp0 Hp1 Hp2 Hlen Hin Hbound Hlast.
  assert (∃ abort, pass3 code symbolMap needsLinkage = inl abort)
    as [abort Hp3].
  { destruct (pass3 code symbolMap needsLinkage) as [abort|[res code']]
      eqn:Hp3; [by exists abort|].
    apply pass3_inr in Hp3 as (st' & Hloop & _ & _).
    destruct (pass3_loop_asserts _ _ _ _ Hloop Hdebug req Hin Hbound)
      as [Hpos _].
    pose proof (pass2_loop_link_bounds expandedLines
                  (mkPass2 [] [] ∅ [])) as Hbounds.
    apply pass2_inr in Hp2. rewrite Hp2 in Hbounds.
    destruct (Hbounds (λ r Hr, False_rect _ (proj1 (elem_of_nil r) Hr))
                req Hin) as [H0 _].
    simpl in Hpos, H0. unfold u32 in Hpos.
    rewrite !Z.mod_small in Hpos by lia. lia. }
  exists abort. split; [done|].
  unfold assemble. rewrite Hp0. cbn [runPass]. rewrite Hp1. cbn [runPass].
  rewrite Hp2. cbn [runPass]. by rewrite Hp3.
Qed.

End asserts_compiled_in.

Lemma assemble_aborts_witness :
  let isa := Toy.assembler in
  ∃ abort,
    pass3 (word_bytes 111 ++ word_bytes 19) {["start" := 0]}
      [{| req_sourceLine := 0; offset := 0;
          fieldRequest := {| field := Some Toy.jal_imm;
                             symbol := "start" |} |}] = inl abort ∧
    assemble ["start: jal ra,start"; "addi x0,x0,0"] = inl abort.
Proof.
  intros isa.
  apply (assemble_aborts (isa := Toy.assembler)
           ["start: jal ra,start"; "addi x0,x0,0"]
           [mkTSL 0 {["start"]} ∅ ["jal"; "ra"; "start"];
            mkTSL 1 ∅ ∅ ["addi"; "x0"; "x0"; "0"]]
           [mkTSL 0 {["start"]} ∅ ["jal"; "ra"; "start"];
            mkTSL 1 ∅ ∅ ["addi"; "x0"; "x0"; "0"]]
           (word_bytes 111 ++ word_bytes 19) {["start" := 0]}
           [{| req_sourceLine := 0; offset := 0;
               fieldRequest := {| field := Some Toy.jal_imm;
                                  symbol := "start" |} |}]
           {| req_sourceLine := 0; offset := 0;
              fieldRequest := {| field := Some Toy.jal_imm;
                                 symbol := "start" |} |}).
  - reflexivity.
  - by vm_compute.
  - by vm_compute.
  - by vm_compute.
  - by vm_compute.
  - set_solver.
  - by eexists.
  - by vm_compute.
Defined.

(** * The source text as lines *)

Section source_lines.

Lemma splitLines_not_nil (s : string) : splitLines s ≠ [].
Proof.
  induction s as [|c s IH]; simpl; [done|].
  destruct (is_line_break c); [done|]. by destruct (splitLines s).
Qed.

Lemma join_cons_char (sep : string) (c : ascii) (l : string)
    (ls : list string) :
  QString.join sep (String c l :: ls) = String c (QString.join sep (l :: ls)).
Proof. by destruct ls. Qed.

(** X22.  [splitLines] cuts at every carriage return and every line feed,
    and at nothing else: no line it returns holds either, there is
    always at least one line, and, for a text without carriage return,
    joining the lines with line feeds gives the text back. *)
Theorem splitLines_spec (s : string) :
  splitLines s ≠ [] ∧
  Forall (λ line, QString.contains "010" line = false ∧
                  QString.contains "013" line = false) (splitLines s) ∧
  (QString.contains "013" s = false →
   QString.join (String "010" "") (splitLines s) = s).
Proof.
  split; [apply splitLines_not_nil|]. split.
  - induction s as [|c s IH]; simpl; [by repeat constructor|].
    unfold is_line_break.
    destruct (Ascii.eqb c "010") eqn:H10; simpl.
    { by constructor. }
    destruct (Ascii.eqb c "013") eqn:H13; simpl.
    { by constructor. }
    destruct (splitLines s) as [|l ls].
    { apply Forall_singleton. simpl. by rewrite H10, H13. }
    apply Forall_cons in IH as [[? ?] ?]. constructor; [|done].
    simpl. by rewrite H10, H13.
  - induction s as [|c s IH]; simpl; [done|].
    unfold is_line_break.
    destruct (Ascii.eqb c "013") eqn:H13; [done|]. intros Hcr.
    specialize (IH Hcr). rewrite orb_false_r.
    destruct (Ascii.eqb c "010") eqn:H10.
    + apply Ascii.eqb_eq in H10. subst c.
      pose proof (splitLines_not_nil s) as Hne.
      destruct (splitLines s) as [|l ls]; [done|].
      simpl in *. by rewrite IH.
    + pose proof (splitLines_not_nil s) as Hne.
      destruct (splitLines s) as [|l ls]; [done|].
      rewrite join_cons_char. by rewrite IH.
Qed.

End source_lines.

(** * Further properties of [disassemble] *)

Section disassemble_outcomes.
Context {isa : AssemblerBase}.

(** The loop from the offset that follows the bytes [done], on a whole
    number of words. *)
Lemma disassemble_loop_outcome (baseAddress : Z) (n : nat) :
  ∀ (done rest : QByteArray) (res0 : DisassembleResult),
    length rest = (4 * n)%nat →
    (∃ k, length done = (4 * k)%nat) →
    match disassemble_loop baseAddress (Z.of_nat (length done)) rest res0 with
    | inl exn =>
        exn = bad_variant_access ∧
        ∃ before b0 b1 b2 b3 after instr e,
          done ++ rest = before ++ [b0; b1; b2; b3] ++ after ∧
          (∃ k, length before = (4 * k)%nat) ∧
          matchInstruction (bytes_word [b0; b1; b2; b3]) = inr instr ∧
          instr_disassemble instr (bytes_word [b0; b1; b2; b3])
            (u32 (baseAddress + Z.of_nat (length before))) ∅ = inl e
    | inr res =>
        (length (dis_program res) + length (dis_errors res) =
           length (dis_program res0) + length (dis_errors res0) + n)%nat ∧
        (Forall (λ e, ∃ w, matchInstruction w = inl e) (dis_errors res0) →
         Forall (λ e, ∃ w, matchInstruction w = inl e) (dis_errors res))
    end.
Proof.
  induction n as [|n IH]; intros done rest res0 Hlen Hdone.
  - destruct rest; [|done]. simpl. split; [lia|done].
  - destruct rest as [|c0 [|c1 [|c2 [|c3 rest]]]]; simpl in Hlen; try lia.
    assert (length rest = (4 * n)%nat) as Hlen' by lia.
    assert (∃ k, length (done ++ [c0; c1; c2; c3]) = (4 * k)%nat) as Hdone'.
    { destruct Hdone as [k Hk]. exists (S k). rewrite length_app, Hk.
      simpl. lia. }
    assert (Z.of_nat (length done) + 4 =
            Z.of_nat (length (done ++ [c0; c1; c2; c3]))) as Hi.
    { rewrite length_app. simpl. lia. }
    assert ((done ++ [c0; c1; c2; c3]) ++ rest =
            done ++ c0 :: c1 :: c2 :: c3 :: rest) as Happ
      by by rewrite <- app_assoc.
    cbn [disassemble_loop]. rewrite Hi.
    destruct (matchInstruction (bytes_word [c0; c1; c2; c3]))
      as [err|instr] eqn:Hm; cbn [get_first get_second].
    + specialize (IH (done ++ [c0; c1; c2; c3]) rest
                    {| dis_program := dis_program res0;
                       dis_errors := dis_errors res0 ++ [err] |}
                    Hlen' Hdone').
      destruct (disassemble_loop _ _ rest _) as [exn|res].
      * by rewrite <- Happ.
      * simpl in IH. destruct IH as [Hcount Herrs]. split.
        -- rewrite Hcount, length_app. simpl. lia.
        -- intros H0. apply Herrs. apply Forall_app. split; [done|].
           apply Forall_singleton. by exists (bytes_word [c0; c1; c2; c3]).
    + destruct (instr_disassemble instr _ _ _) as [e|toks] eqn:Hd;
        cbn [get_second].
      * split; [done|].
        exists done, c0, c1, c2, c3, rest, instr, e. by split_and!.
      * specialize (IH (done ++ [c0; c1; c2; c3]) rest
                      {| dis_program :=
                           dis_program res0 ++ [QString.join " " toks];
                         dis_errors := dis_errors res0 |}
                      Hlen' Hdone').
        destruct (disassemble_loop _ _ rest _) as [exn|res].
        -- by rewrite <- Happ.
        -- simpl in IH. destruct IH as [Hcount Herrs]. split; [|done].
           rewrite Hcount, length_app. simpl. lia.
Qed.

(** X23.  [disassemble] in full.  It throws [std::runtime_error] exactly
    when the size is no multiple of 4.  Otherwise it throws
    [std::bad_variant_access] at a word that matches an instruction which
    fails to disassemble; or it returns, and then every word has given
    one line or one error, the errors being those of the matcher. *)
Theorem disassemble_outcome (program : QByteArray) (baseAddress : Z) :
  match disassemble program baseAddress with
  | inl (runtime_error what) =>
      what = "Program instructions unaligned with instruction size" ∧
      (length program `mod` 4 ≠ 0)%nat
  | inl bad_variant_access =>
      (length program `mod` 4 = 0)%nat ∧
      ∃ before b0 b1 b2 b3 after instr e,
        program = before ++ [b0; b1; b2; b3] ++ after ∧
        (length before `mod` 4 = 0)%nat ∧
        matchInstruction (bytes_word [b0; b1; b2; b3]) = inr instr ∧
        instr_disassemble instr (bytes_word [b0; b1; b2; b3])
          (u32 (baseAddress + Z.of_nat (length before))) ∅ = inl e
  | inr res =>
      (length program `mod` 4 = 0)%nat ∧
      (length (dis_program res) + length (dis_errors res) =
         length program `div` 4)%nat ∧
      Forall (λ e, ∃ w, matchInstruction w = inl e) (dis_errors res)
  end.
Proof.
  unfold disassemble. case_bool_decide as Hal.
  { split; [done|]. intros Hmod. apply Hal.
    change 4 with (Z.of_nat 4). by rewrite <- Nat2Z.inj_mod, Hmod. }
  assert (length program `mod` 4 = 0)%nat as Hmod.
  { change 4 with (Z.of_nat 4) in Hal. rewrite <- Nat2Z.inj_mod in Hal.
    lia. }
  apply Nat.Div0.div_exact in Hmod as Hdiv.
  pose proof (disassemble_loop_outcome baseAddress (length program `div` 4)
                [] program {| dis_program := []; dis_errors := [] |}
                Hdiv (ex_intro _ 0%nat eq_refl)) as Hloop.
  cbn [length app Nat.add] in Hloop. change (Z.of_nat 0) with 0 in Hloop.
  destruct (disassemble_loop baseAddress 0 program _) as [exn|res].
  - destruct Hloop as (-> & before & b0 & b1 & b2 & b3 & after & instr & e
                       & -> & [k Hk] & Hm & Hd).
    split; [done|].
    exists before, b0, b1, b2, b3, after, instr, e. split_and!; try done.
    rewrite Hk, Nat.mul_comm. apply Nat.Div0.mod_mul.
  - destruct Hloop as [Hcount Herrs]. split_and!; [done|done|].
    apply Herrs. constructor.
Qed.

End disassemble_outcomes.

(** ** Registration of the tables *)

Section registration.
Context {A : Type} (name : A → string) (what : string → string).

(** Items with fresh, distinct names are all registered, each under its
    name, and the loop goes on with what follows them. *)
Lemma register_prefix (l1 : list A) :
  ∀ map : gmap string A,
    NoDup (name <$> l1) →
    (∀ y, y ∈ l1 → map !! name y = None) →
    ∃ map',
      (∀ rest, Tables.register name what (l1 ++ rest) map =
               Tables.register name what rest map') ∧
      ∀ n v, map' !! n = Some v ↔
             map !! n = Some v ∨ (v ∈ l1 ∧ name v = n).
Proof.
  induction l1 as [|x l1 IH]; intros map Hnd Hfresh.
  - exists map. split; [done|]. intros n v. split; [by left|].
    intros [H|[H _]]; [done|by apply elem_of_nil in H].
  - rewrite fmap_cons in Hnd. apply NoDup_cons in Hnd as [Hx Hnd].
    assert (Hmx : map !! name x = None) by (apply Hfresh; left).
    destruct (IH (<[name x := x]> map) Hnd) as (map' & Hreg & Hmap).
    { intros y Hy. rewrite lookup_insert_ne; [apply Hfresh; by right|].
      intros Heq. apply Hx. rewrite Heq. by apply list_elem_of_fmap_2. }
    exists map'. split.
    + intros rest. cbn [app Tables.register].
      rewrite bool_decide_eq_false_2; [apply Hreg|].
      rewrite Hmx. by intros [? ?].
    + intros n v. rewrite Hmap, elem_of_cons. split.
      * intros [Hl|[Hin Hn]]; [|right; split; [by right|done]].
        destruct (decide (name x = n)) as [<-|Hne].
        -- rewrite lookup_insert_eq in Hl. right. split; [left|]; congruence.
        -- rewrite lookup_insert_ne in Hl by done. by left.
      * intros [Hl|[[->|Hin] Hn]].
        -- left. rewrite lookup_insert_ne; [done|]. congruence.
        -- left. subst n. by rewrite lookup_insert_eq.
        -- right. by split.
Qed.

(** Starting from an empty map, the loop either registers everything, and
    the names are distinct, or throws at the first item whose name came
    before. *)
Lemma register_outcome (items : list A) :
  (NoDup (name <$> items) ∧
   ∃ map', Tables.register name what items ∅ = (map', None) ∧
     ∀ n v, map' !! n = Some v ↔ v ∈ items ∧ name v = n) ∨
  (¬ NoDup (name <$> items) ∧
   ∃ l1 x l2 map',
     items = l1 ++ x :: l2 ∧
     NoDup (name <$> l1) ∧
     name x ∈ name <$> l1 ∧
     Tables.register name what items ∅ =
       (map', Some (runtime_error (what (name x)))) ∧
     ∀ n v, map' !! n = Some v ↔ v ∈ l1 ∧ name v = n).
Proof.
  assert (Hempty : ∀ (l : list A) (map' : gmap string A),
    (∀ n v, map' !! n = Some v ↔
            (∅ : gmap string A) !! n = Some v ∨ (v ∈ l ∧ name v = n)) →
    ∀ n v, map' !! n = Some v ↔ v ∈ l ∧ name v = n).
  { intros l map' H n v. rewrite H, lookup_empty. naive_solver. }
  induction items as [|x items IH] using rev_ind.
  - left. split; [constructor|]. exists ∅. split; [done|].
    intros n v. rewrite lookup_empty. split; [done|].
    intros [H _]. by apply elem_of_nil in H.
  - destruct IH as [(Hnd & map' & Hreg & Hmap)|
                    (Hnd & l1 & y & l2 & map' & -> & Hnd1 & Hy & Hreg & Hmap)].
    + destruct (register_prefix items ∅ Hnd) as (map1 & Hreg1 & Hmap1).
      { intros. apply lookup_empty. }
      pose proof (Hempty _ _ Hmap1) as Hmap1'. clear Hmap1.
      rename Hmap1' into Hmap1.
      destruct (decide (name x ∈ name <$> items)) as [Hdup|Hnew].
      * right. split.
        { rewrite fmap_app. intros H. apply NoDup_app in H as (_ & H & _).
          apply (H _ Hdup). rewrite fmap_cons. left. }
        exists items, x, [], map1. split_and!; try done.
        rewrite Hreg1. cbn [Tables.register].
        rewrite bool_decide_eq_true_2; [done|].
        apply list_elem_of_fmap in Hdup as (v & Hv & Hin).
        exists v. apply Hmap1. by split.
      * left. split.
        { rewrite fmap_app. apply NoDup_app. split_and!; [done| |].
          - intros n Hn Hx. rewrite fmap_cons, list_elem_of_singleton in Hx.
            by subst n.
          - rewrite fmap_cons. apply NoDup_singleton. }
        destruct (register_prefix (items ++ [x]) ∅) as (map2 & Hreg2 & Hmap2).
        { rewrite fmap_app. apply NoDup_app. split_and!; [done| |].
          - intros n Hn Hx. rewrite fmap_cons, list_elem_of_singleton in Hx.
            by subst n.
          - rewrite fmap_cons. apply NoDup_singleton. }
        { intros. apply lookup_empty. }
        exists map2. split; [|by apply Hempty].
        rewrite <- (app_nil_r (items ++ [x])) at 1. apply Hreg2.
    + right. split.
      { rewrite fmap_app. intros H. by apply NoDup_app in H as (H & _). }
      exists l1, y, (l2 ++ [x]), map'. split_and!; try done.
      * by rewrite <- app_assoc.
      * destruct (register_prefix l1 ∅ Hnd1) as (map1 & Hreg1 & Hmap1).
        { intros. apply lookup_empty. }
        rewrite <- app_assoc. cbn [app].
        rewrite Hreg1 in Hreg |- *. cbn [Tables.register] in Hreg |- *.
        assert (Hbound : is_Some (map1 !! name y)).
        { apply list_elem_of_fmap in Hy as (v & Hv & Hin).
          exists v. apply Hmap1. right. by split. }
        by rewrite bool_decide_eq_true_2 in Hreg |- *.
Qed.

End registration.

(** X24.  [setInstructions] on an object that holds no instruction yet,
    given instructions with distinct names: it does not throw, keeps the
    vector, and the map then holds exactly the given instructions, each
    under its name.  The other members are untouched. *)
Theorem setInstructions_registers (a : Tables.t)
    (instructions : list Instruction) :
  Tables.m_instructions a = [] →
  Tables.m_instructionMap a = ∅ →
  NoDup (instr_name <$> instructions) →
  ∃ map,
    Tables.setInstructions a instructions =
      (Tables.mk instructions map
         (Tables.m_pseudoInstructions a) (Tables.m_pseudoInstructionMap a)
         (Tables.m_directives a) (Tables.m_directivesMap a)
         (Tables.m_matcher a), None) ∧
    ∀ n i, map !! n = Some i ↔ i ∈ instructions ∧ instr_name i = n.
Proof.
  intros Hvec Hmap Hnd. unfold Tables.setInstructions.
  rewrite Hvec, Hmap. rewrite bool_decide_eq_false_2 by (by intros H).
  destruct (register_outcome instr_name
    (λ n, "Error: instruction with opcode " +:+ n +:+
          " has already been registerred.") instructions)
    as [(_ & map & Hreg & Hchar)|(Hbad & _)]; [|done].
  exists map. by rewrite Hreg.
Qed.

Lemma setInstructions_registers_witness :
  ∃ map,
    Tables.setInstructions Tables.fresh [Toy.addi; Toy.jal] =
      (Tables.mk [Toy.addi; Toy.jal] map [] ∅ [] ∅ None, None) ∧
    ∀ n i, map !! n = Some i ↔ i ∈ [Toy.addi; Toy.jal] ∧ instr_name i = n.
Proof.
  apply (setInstructions_registers Tables.fresh [Toy.addi; Toy.jal]).
  - reflexivity.
  - reflexivity.
  - apply (bool_decide_unpack _). vm_compute. reflexivity.
Defined.

(** X25.  [setInstructions] given a name twice throws at the second
    instruction of that name, with a message that names the opcode.  The
    object is left changed: the vector holds all the given instructions
    and the map those before the repeated one. *)
Theorem setInstructions_duplicate (a : Tables.t)
    (l1 : list Instruction) (x : Instruction) (l2 : list Instruction) :
  Tables.m_instructions a = [] →
  Tables.m_instructionMap a = ∅ →
  NoDup (instr_name <$> l1) →
  instr_name x ∈ instr_name <$> l1 →
  ∃ map,
    Tables.setInstructions a (l1 ++ x :: l2) =
      (Tables.mk (l1 ++ x :: l2) map
         (Tables.m_pseudoInstructions a) (Tables.m_pseudoInstructionMap a)
         (Tables.m_directives a) (Tables.m_directivesMap a)
         (Tables.m_matcher a),
       Some (runtime_error
               ("Error: instruction with opcode " +:+ instr_name x +:+
                " has already been registerred."))) ∧
    ∀ n i, map !! n = Some i ↔ i ∈ l1 ∧ instr_name i = n.
Proof.
  intros Hvec Hmap Hnd Hdup. unfold Tables.setInstructions.
  rewrite Hvec, Hmap. rewrite bool_decide_eq_false_2 by (by intros H).
  destruct (register_prefix instr_name
    (λ n, "Error: instruction with opcode " +:+ n +:+
          " has already been registerred.") l1 ∅ Hnd)
    as (map & Hreg & Hchar).
  { intros. apply lookup_empty. }
  assert (Hchar' : ∀ n i, map !! n = Some i ↔ i ∈ l1 ∧ instr_name i = n).
  { intros n i. rewrite Hchar, lookup_empty. naive_solver. }
  exists map. split; [|done].
  rewrite Hreg. cbn [Tables.register].
  rewrite bool_decide_eq_true_2; [done|].
  apply list_elem_of_fmap in Hdup as (v & Hv & Hin).
  exists v. apply Hchar'. by split.
Qed.

Lemma setInstructions_duplicate_witness :
  ∃ map,
    Tables.setInstructions Tables.fresh ([Toy.addi; Toy.jal] ++ Toy.addi :: []) =
      (Tables.mk ([Toy.addi; Toy.jal] ++ Toy.addi :: []) map [] ∅ [] ∅ None,
       Some (runtime_error
               ("Error: instruction with opcode " +:+ instr_name Toy.addi +:+
                " has already been registerred."))) ∧
    ∀ n i, map !! n = Some i ↔ i ∈ [Toy.addi; Toy.jal] ∧ instr_name i = n.
Proof.
  apply (setInstructions_duplicate Tables.fresh [Toy.addi; Toy.jal]
           Toy.addi []).
  - reflexivity.
  - reflexivity.
  - apply (bool_decide_unpack _). vm_compute. reflexivity.
  - apply (bool_decide_unpack _). vm_compute. reflexivity.
Defined.

(** X26.  After a call of [setInstructions] with a non-empty vector,
    whether it threw or not, every further call throws
    "Instructions already set" and leaves the object as it is. *)
Theorem setInstructions_once (a a' : Tables.t)
    (instructions again : list Instruction) (exn : option Exception) :
  instructions ≠ [] →
  Tables.setInstructions a instructions = (a', exn) →
  Tables.setInstructions a' again =
    (a', Some (runtime_error "Instructions already set")).
Proof.
  intros Hne. unfold Tables.setInstructions at 1.
  case_bool_decide as Hset.
  - intros [= <- _]. unfold Tables.setInstructions.
    by rewrite bool_decide_eq_true_2.
  - destruct (Tables.register _ _ _ _) as [map e]. intros [= <- _].
    unfold Tables.setInstructions. cbn [Tables.m_instructions].
    by rewrite bool_decide_eq_true_2.
Qed.

Lemma setInstructions_once_witness :
  Tables.setInstructions
    (Tables.setInstructions Tables.fresh [Toy.addi; Toy.jal]).1 [Toy.addi] =
    ((Tables.setInstructions Tables.fresh [Toy.addi; Toy.jal]).1,
     Some (runtime_error "Instructions already set")).
Proof.
  apply (setInstructions_once Tables.fresh _ [Toy.addi; Toy.jal] [Toy.addi]
           (Tables.setInstructions Tables.fresh [Toy.addi; Toy.jal]).2).
  - discriminate.
  - apply surjective_pairing.
Defined.


Section directives_in_pass2.
Context {isa : AssemblerBase}.

Lemma pass2_loop_errors_prefix (lines : Program) (st : Pass2State) :
  p2_errors st `prefix_of` p2_errors (pass2_loop lines st).
Proof.
  destruct (pass2_loop_spec lines st) as (_ & extra & _ & -> & _).
  by exists extra.
Qed.

(** X28.  A directive whose handler returns no value is not taken as
    handled: pass 2 then assembles the line as an instruction, and when
    no instruction has the directive's name the pass fails with
    "Unknown opcode" for that line. *)
Theorem directive_without_value (before after : Program)
    (line : TokenizedSrcLine) (directive : string) (args : LineTokens)
    (d : Directive) (symbolMap : SymbolMap) (needsLinkage : LinkRequests) :
  tokens line = directive :: args →
  m_directivesMap !! directive = Some d →
  handle d line = inr None →
  m_instructionMap !! directive = None →
  ∃ errs,
    (pass2 (before ++ line :: after) symbolMap needsLinkage).1.1 = inl errs ∧
    mkError (sourceLine line) ("Unknown opcode '" +:+ directive +:+ "'")
      ∈ errs.
Proof.
  intros Htok Hd Hh Hi. unfold pass2. cbn [fst].
  rewrite pass2_loop_app.
  change (pass2_loop (line :: after) ?st)
    with (pass2_loop after (pass2_step st line)).
  set (st := pass2_loop before _).
  assert (Hin : mkError (sourceLine line)
                  ("Unknown opcode '" +:+ directive +:+ "'")
                ∈ p2_errors (pass2_step st line)).
  { unfold pass2_step.
    destruct (pass2_symbols line _ _) as [sm errs].
    unfold assembleDirective, assembleInstruction.
    rewrite Htok, Hd, Hh, Hi. cbn [p2_errors].
    apply elem_of_app. right. left. }
  destruct (pass2_loop_errors_prefix after (pass2_step st line))
    as [extra Hextra].
  assert (Hin' : mkError (sourceLine line)
                   ("Unknown opcode '" +:+ directive +:+ "'")
                 ∈ p2_errors (pass2_loop after (pass2_step st line))).
  { rewrite Hextra. apply elem_of_app. by left. }
  exists (p2_errors (pass2_loop after (pass2_step st line))).
  split; [|done].
  rewrite bool_decide_eq_true_2; [done|].
  intros Hnil. rewrite Hnil in Hin'. by apply elem_of_nil in Hin'.
Qed.

End directives_in_pass2.

Lemma directive_without_value_witness :
  let isa := ToyData.assembler in
  ∃ errs,
    (pass2 ([] ++ mkTSL 0 ∅ ∅ [".data"] :: []) ∅ []).1.1 = inl errs ∧
    mkError 0 ("Unknown opcode '" +:+ ".data" +:+ "'") ∈ errs.
Proof.
  intros isa.
  apply (directive_without_value (isa := ToyData.assembler) [] []
           (mkTSL 0 ∅ ∅ [".data"]) ".data" [] ToyData.data ∅ []).
  - reflexivity.
  - reflexivity.
  - reflexivity.
  - reflexivity.
Defined.
